(** * uperm: unique permutations by levels of index swaps

    A shallow embedding of [uperm.h] (namespace [uperm]) and the
    properties of its three parts:

    - the Counter ([num_unique_pairs], [num_unique_pairs_ge_min],
      [num_unique_permutations_ge_min], [num_unique_permutations]),
    - the Executor ([execute_permutations]),
    - the Enumerator ([inner_permutation_loop],
      [get_all_unique_permutations]).

    [size_t] is a 64-bit unsigned integer: a [Z] in [0, 2^64) whose
    arithmetic wraps around.  [int] values (the template arguments [N], [L]
    and the arguments [L], [X], [MIN] of the inner loop) are [Z]s in the
    range of a 32-bit signed integer; the conversions between the two are
    written out.  Loops and recursion take fuel; an access outside an array
    is undefined behaviour and is an outcome of its own.  The one
    allocation of the code, the vector of [get_all_unique_permutations],
    throws when the vector is larger than [max_size()] or than what the
    allocator grants ([heap] bytes, a parameter of the call). *)

From stdpp Require Import base tactics option list list_numbers numbers.
From Stdlib Require Import ZArith Lia.
From Stdlib Require Sorted.

Local Open Scope Z_scope.

(** ** Machine integers *)

Definition SIZE_MOD : Z := 2 ^ 64.
Definition INT_MAX : Z := 2 ^ 31 - 1.
Definition PTRDIFF_MAX : Z := 2 ^ 63 - 1.

(** Conversion to [size_t] (and reduction of a [size_t] result). *)
Definition to_size_t (z : Z) : Z := z mod SIZE_MOD.

(** Conversion of a [size_t] to [int] (two's complement, modular). *)
Definition to_int (z : Z) : Z := (z + 2 ^ 31) mod 2 ^ 32 - 2 ^ 31.

Definition uadd (a b : Z) : Z := to_size_t (a + b).
Definition usub (a b : Z) : Z := to_size_t (a - b).
Definition umul (a b : Z) : Z := to_size_t (a * b).
Definition udiv (a b : Z) : Z := a / b.

(** ** Outcomes of a call

    [Returns v]: the call returns [v].  [Throws]: an exception leaves the
    call; [uperm.h] has no [throw] and no assertion of its own, the
    exceptions are those of the constructor of [std::vector]
    ([std::length_error], [std::bad_alloc]).  [Undefined]: the call has
    undefined behaviour (an access outside an array).  [OutOfFuel]: the
    fuel ran out. *)

Inductive outcome (A : Type) : Type :=
  | Returns (v : A)
  | Throws
  | Undefined
  | OutOfFuel.
Arguments Returns {A} v.
Arguments Throws {A}.
Arguments Undefined {A}.
Arguments OutOfFuel {A}.

Definition obind {A B : Type} (m : outcome A) (k : A -> outcome B) : outcome B :=
  match m with
  | Returns v => k v
  | Throws => Throws
  | Undefined => Undefined
  | OutOfFuel => OutOfFuel
  end.

Notation "x <- m ;; k" := (obind m (fun x => k))
  (at level 100, m at next level, right associativity).

(** [for (size_t I = init; cond(I); I++) body] over a loop state [St]. *)
Fixpoint for_loop {St : Type} (fuel : nat) (cond : Z -> bool)
    (body : Z -> St -> outcome St) (I : Z) (s : St) : outcome St :=
  match fuel with
  | O => OutOfFuel
  | S fuel' =>
      if cond I
      then s' <- body I s ;; for_loop fuel' cond body (uadd I 1) s'
      else Returns s
  end.

(** [arr[i]] and [arr[i] = v] on a [std::array] or [std::vector]: outside
    the bounds the behaviour is undefined. *)
Definition in_bounds {A : Type} (arr : list A) (i : Z) : bool :=
  (0 <=? i) && (i <? Z.of_nat (length arr)).

Definition array_load {A : Type} (arr : list A) (i : Z) : outcome A :=
  if in_bounds arr i
  then match arr !! Z.to_nat i with Some v => Returns v | None => Undefined end
  else Undefined.

Definition array_store {A : Type} (arr : list A) (i : Z) (v : A) : outcome (list A) :=
  if in_bounds arr i then Returns (<[Z.to_nat i := v]> arr) else Undefined.

(** [std::vector<T> v(n)] with [sizeof(T) = elt_bytes], on a heap that
    grants a block of up to [heap] bytes: the constructor throws
    [std::length_error] when [n] is above [max_size()], which is
    [PTRDIFF_MAX / sizeof(T)] (libstdc++, 64-bit target), and the
    allocation of the [n * sizeof(T)] bytes throws [std::bad_alloc] when
    the heap does not grant them; no block is asked for when [n = 0].
    Otherwise the vector holds [n] value-initialised elements [x]. *)
Definition vector_fits (heap n elt_bytes : Z) : bool :=
  (n <=? PTRDIFF_MAX / elt_bytes) && ((n =? 0) || (n * elt_bytes <=? heap)).

Definition vector_new {A : Type} (heap n elt_bytes : Z) (x : A)
    : outcome (list A) :=
  if vector_fits heap n elt_bytes
  then Returns (replicate (Z.to_nat n) x)
  else Throws.

(** ** Data model *)

Record index_permutation : Type := { first : Z; second : Z }.

(** [index_permutation_list<L>]: a [std::array] of [L] index pairs. *)
Abbreviation index_permutation_list := (list index_permutation) (only parsing).

(** [sizeof(index_permutation_list<L>)]: a pair is two [size_t], and an
    array of no element still takes one byte (libstdc++). *)
Definition row_bytes (L : Z) : Z := if L =? 0 then 1 else 16 * L.

(** ** Counter *)

Definition num_unique_pairs_ge_min (N MIN : Z) : Z :=
  if (0 <? usub N MIN) && (MIN <=? usub N 2)
  then udiv (umul (usub N MIN) (usub (usub N MIN) 1)) 2
  else 0.

Definition num_unique_pairs (N : Z) : Z :=
  if 0 <? N then udiv (umul N (usub N 1)) 2 else 0.

Definition num_unique_pairs_lt_max (N MAX : Z) : Z :=
  if (0 <? N) && (0 <=? MAX)
  then udiv (usub (usub (umul (umul 2 N) MAX) (umul MAX MAX)) MAX) 2
  else 0.

Fixpoint num_unique_permutations_ge_min (fuel : nat) (N L MIN : Z) : outcome Z :=
  if L =? 0 then Returns 1
  else if (L <? 0) || (usub N 2 <? MIN) then Returns 0
  else
    match fuel with
    | O => OutOfFuel
    | S fuel' =>
        for_loop fuel' (fun I => I <=? usub N 2)
          (fun I total =>
             r <- num_unique_permutations_ge_min fuel' N (usub L 1) I ;;
             Returns (uadd total (umul (usub (usub N I) 1) r)))
          (uadd MIN 1) 0
    end.

Definition num_unique_permutations (fuel : nat) (N L : Z) : outcome Z :=
  if L =? 0 then Returns 1
  else if usub N 1 <? L then Returns 0
  else
    for_loop fuel (fun I => I <=? usub N 2)
      (fun I total =>
         r <- num_unique_permutations_ge_min fuel N (usub L 1) I ;;
         Returns (uadd total (umul (usub (usub N I) 1) r)))
      0 0.

(** ** Executor

    The call frame holds the caller's collection [IN] (a [const T&]) and
    the local [OUT], a copy of it; the swaps go through [OUT.begin()]. *)

Section Executor.
Context {A : Type}.

Record exec_frame : Type := { ex_IN : list A; ex_OUT : list A }.

(** [std::iter_swap(c.begin() + a, c.begin() + b)] *)
Definition iter_swap (c : list A) (a b : Z) : outcome (list A) :=
  x <- array_load c a ;;
  y <- array_load c b ;;
  c1 <- array_store c a y ;;
  array_store c1 b x.

Fixpoint execute_loop (PLIST : index_permutation_list) (fr : exec_frame)
    : outcome exec_frame :=
  match PLIST with
  | [] => Returns fr
  | perm :: rest =>
      out <- iter_swap (ex_OUT fr) (first perm) (second perm) ;;
      execute_loop rest {| ex_IN := ex_IN fr; ex_OUT := out |}
  end.

Definition execute_permutations_frame (PLIST : index_permutation_list)
    (IN : list A) : outcome exec_frame :=
  execute_loop PLIST {| ex_IN := IN; ex_OUT := IN |}.

Definition execute_permutations (PLIST : index_permutation_list)
    (IN : list A) : outcome (list A) :=
  fr <- execute_permutations_frame PLIST IN ;; Returns (ex_OUT fr).
End Executor.
Global Arguments exec_frame : clear implicits.

(** ** Enumerator

    The state the recursion works on: the partial list [TMP], the output
    vector [OUT] and the position of the iterator [LIST_ELEMENT] in it. *)

Record enum_state : Type := {
  es_TMP : index_permutation_list;
  es_OUT : list index_permutation_list;
  es_ELEMENT : nat
}.

Definition set_TMP (st : enum_state) (tmp : index_permutation_list) : enum_state :=
  {| es_TMP := tmp; es_OUT := es_OUT st; es_ELEMENT := es_ELEMENT st |}.

(** [std::copy] of [TMP] into the list under [LIST_ELEMENT], then
    [LIST_ELEMENT++]; past the end of [OUT] the behaviour is undefined. *)
Definition copy_out (st : enum_state) : outcome enum_state :=
  match es_OUT st !! es_ELEMENT st with
  | Some _ =>
      Returns {| es_TMP := es_TMP st;
                 es_OUT := <[es_ELEMENT st := es_TMP st]> (es_OUT st);
                 es_ELEMENT := S (es_ELEMENT st) |}
  | None => Undefined
  end.

Fixpoint inner_permutation_loop (fuel : nat) (N LMAX : Z) (L X MIN : Z)
    (st : enum_state) : outcome enum_state :=
  if (LMAX - 1 <? X) || (L <? 0) then copy_out st
  else
    match fuel with
    | O => OutOfFuel
    | S fuel' =>
        for_loop fuel' (fun I => I <? to_size_t (Z.min (N - L) (N - 1)))
          (fun I st =>
             for_loop fuel' (fun J => J <? to_size_t N)
               (fun J st =>
                  tmp <- array_store (es_TMP st) (to_size_t X)
                           {| first := I; second := J |} ;;
                  inner_permutation_loop fuel' N LMAX (L - 1) (X + 1)
                    (to_int (uadd I 1)) (set_TMP st tmp))
               (uadd I 1) st)
          (to_size_t MIN) st
    end.

(** [TMP0] is what the uninitialised local [TMP] happens to hold, [heap]
    the largest block in bytes that the allocator grants.  The vector
    [OUT] is built first, with [num_unique_permutations(N, L)] lists of
    zeroes, and its constructor may throw. *)
Definition get_all_unique_permutations (fuel : nat) (heap : Z) (N L : Z)
    (TMP0 : index_permutation_list) : outcome (list index_permutation_list) :=
  n <- num_unique_permutations fuel (to_size_t N) (to_size_t L) ;;
  OUT <- vector_new heap n (row_bytes L)
           (replicate (Z.to_nat L) {| first := 0; second := 0 |}) ;;
  if L =? 0 then
    row <- array_load OUT 0 ;;
    row' <- array_store row 0 {| first := 0; second := 0 |} ;;
    array_store OUT 0 row'
  else
    st <- for_loop fuel (fun I => I <? to_size_t (Z.min (N - L) (N - 1)))
            (fun I st =>
               for_loop fuel (fun J => J <? to_size_t N)
                 (fun J st =>
                    tmp <- array_store (es_TMP st) 0
                             {| first := I; second := J |} ;;
                    inner_permutation_loop fuel N L (L - 1) (0 + 1)
                      (to_int (uadd I 1)) (set_TMP st tmp))
                 (uadd I 1) st)
            0 {| es_TMP := TMP0; es_OUT := OUT; es_ELEMENT := 0 |} ;;
    Returns (es_OUT st).

(** ** Reference definitions *)

(** All the lists of [r] swaps on [N] elements whose lower indices increase
    strictly and start at [lo] or above, in the order of the traversal:
    lower index outermost, then upper index, then the rest. *)
Fixpoint all_sequences (r : nat) (N lo : Z) : list index_permutation_list :=
  match r with
  | O => [[]]
  | S r' =>
      i ← seqZ lo (N - 1 - lo);
      j ← seqZ (i + 1) (N - (i + 1));
      cons {| first := i; second := j |} <$> all_sequences r' N (i + 1)
  end.

Definition sumZ (l : list Z) : Z := foldr Z.add 0 l.
Global Arguments sumZ : simpl never.

(** The number of those lists, in unbounded integers. *)
Fixpoint count_sequences (r : nat) (N lo : Z) : Z :=
  match r with
  | O => 1
  | S r' =>
      sumZ ((fun i => (N - i - 1) * count_sequences r' N (i + 1))
              <$> seqZ lo (N - 1 - lo))
  end.

Fixpoint factorialZ (r : nat) : Z :=
  match r with
  | O => 1
  | S r' => Z.of_nat r * factorialZ r'
  end.

(** The loop body [body] run for the values [l] of the loop variable. *)
Fixpoint run_list {St : Type} (body : Z -> St -> outcome St) (l : list Z)
    (s : St) : outcome St :=
  match l with
  | [] => Returns s
  | i :: l' => s' <- body i s ;; run_list body l' s'
  end.

(** A list of swaps on [N] elements: every pair has [first < second <= N-1]
    and a later pair has a lower index at least one greater than that of an
    earlier pair. *)
Definition pair_ok (N : Z) (p : index_permutation) : Prop :=
  0 <= first p /\ first p < second p /\ second p <= N - 1.

Definition well_formed (N : Z) (s : index_permutation_list) : Prop :=
  Forall (pair_ok N) s /\
  forall (p q : nat) (a b : index_permutation),
    (p < q)%nat -> s !! p = Some a -> s !! q = Some b -> first a + 1 <= first b.

(** The same, by recursion on the list, with a lower bound for the first
    lower index. *)
Fixpoint increasing_from (N lo : Z) (s : index_permutation_list) : Prop :=
  match s with
  | [] => True
  | p :: s' => lo <= first p /\ pair_ok N p /\ increasing_from N (first p + 1) s'
  end.

(** Writing the lists [ss] one after the other at the iterator. *)
Fixpoint emit (OUT : list index_permutation_list) (k : nat)
    (ss : list index_permutation_list)
    : outcome (list index_permutation_list * nat) :=
  match ss with
  | [] => Returns (OUT, k)
  | s :: ss' =>
      match OUT !! k with
      | Some _ => emit (<[k := s]> OUT) (S k) ss'
      | None => Undefined
      end
  end.

(** The run [r] of a part of the enumeration writes what [emit] writes (in
    [e]), keeps the first [length pre] entries [pre] of [TMP] and its
    length [len]; where [emit] runs past the end of [OUT] the run is
    undefined. *)
Definition emits (pre : list index_permutation) (len : nat)
    (r : outcome enum_state)
    (e : outcome (list (list index_permutation) * nat)) : Prop :=
  match r, e with
  | Returns st, Returns (OUT, k) =>
      es_OUT st = OUT /\ es_ELEMENT st = k /\
      take (length pre) (es_TMP st) = pre /\ length (es_TMP st) = len
  | Undefined, Undefined => True
  | _, _ => False
  end.

(** Fuel that is enough for the counter and the enumeration on [N]
    elements at level [L]: the levels, and the iterations of one loop (the
    bound [N - L] of the loop on [I] wraps around when [N < L]). *)
Definition enough_fuel (N L : Z) : nat :=
  (Z.to_nat L + Z.to_nat (if (N <? L)%Z then SIZE_MOD else N) + 1)%nat.

(** Swapping two positions of a list, and a list of swaps applied from
    position 0 on. *)
Definition swap_at {A : Type} (l : list A) (i j : nat) : list A :=
  match l !! i, l !! j with
  | Some x, Some y => <[j := x]> (<[i := y]> l)
  | _, _ => l
  end.

Definition apply_swaps {A : Type} (s : index_permutation_list) (l : list A) : list A :=
  foldl (fun acc p => swap_at acc (Z.to_nat (first p)) (Z.to_nat (second p))) l s.

Definition pair_in_bounds {A : Type} (l : list A) (p : index_permutation) : Prop :=
  0 <= first p < Z.of_nat (length l) /\ 0 <= second p < Z.of_nat (length l).

(** The index pairs [(i, j)] on [N] elements with [lo <= i < hi] and
    [i < j <= N - 1], lower index first. *)
Definition pairs_between (N lo hi : Z) : list index_permutation :=
  i ← seqZ lo (hi - lo);
  (fun j => {| first := i; second := j |}) <$> seqZ (i + 1) (N - (i + 1)).

(** The order of the traversal: pairs by lower index, then upper index;
    lists of pairs by their first difference. *)
Definition pair_before (p q : index_permutation) : Prop :=
  first p < first q \/ (first p = first q /\ second p < second q).

Fixpoint list_before (s t : list index_permutation) : Prop :=
  match s, t with
  | p :: s', q :: t' => pair_before p q \/ (p = q /\ list_before s' t')
  | _, _ => False
  end.

(** * Properties *)

Example num_unique_permutations_4_2 :
  num_unique_permutations 10 4 2 = Returns 11.
Proof. vm_compute. reflexivity. Qed.

Example num_unique_permutations_6 :
  map (num_unique_permutations 10 6) [0; 1; 2; 3; 4; 5]
  = map Returns [1; 15; 85; 225; 274; 120].
Proof. vm_compute. reflexivity. Qed.

Example get_all_4_2 :
  get_all_unique_permutations 10 4096 4 2
    (replicate 2 {| first := 7; second := 7 |})
  = Returns (all_sequences 2 4 0).
Proof. vm_compute. reflexivity. Qed.

Example get_all_4_1 :
  get_all_unique_permutations 10 4096 4 1 [{| first := 7; second := 7 |}]
  = Returns (map (fun p => [{| first := fst p; second := snd p |}])
               [(0,1); (0,2); (0,3); (1,2); (1,3); (2,3)]).
Proof. vm_compute. reflexivity. Qed.

Example get_all_L0 :
  get_all_unique_permutations 10 4096 4 0 [] = Undefined.
Proof. vm_compute. reflexivity. Qed.

Example get_all_6_5_length :
  (r <- get_all_unique_permutations 20 (2 ^ 20) 6 5
          (replicate 5 {| first := 7; second := 7 |}) ;;
   Returns (length r)) = Returns 120%nat.
Proof. vm_compute. reflexivity. Qed.

(** ** Machine integers *)

Lemma SIZE_MOD_eq : SIZE_MOD = 18446744073709551616.
Proof. reflexivity. Qed.

Lemma INT_MAX_eq : INT_MAX = 2147483647.
Proof. reflexivity. Qed.

Lemma to_size_t_small z : 0 <= z < SIZE_MOD -> to_size_t z = z.
Proof. intros H. unfold to_size_t. apply Z.mod_small, H. Qed.

Lemma to_size_t_range z : 0 <= to_size_t z < SIZE_MOD.
Proof. unfold to_size_t. apply Z.mod_pos_bound. reflexivity. Qed.

Lemma to_size_t_neg z : - SIZE_MOD <= z < 0 -> to_size_t z = z + SIZE_MOD.
Proof.
  intros H. unfold to_size_t.
  symmetry. apply (Z.mod_unique_pos  _ _ (-1)); lia.
Qed.

Lemma to_int_small z : - 2 ^ 31 <= z <= INT_MAX -> to_int z = z.
Proof.
  intros H. unfold to_int. rewrite Z.mod_small; [lia|].
  rewrite INT_MAX_eq in H. lia.
Qed.

Lemma to_size_t_idemp z : to_size_t (to_size_t z) = to_size_t z.
Proof. unfold to_size_t. apply Z.mod_mod. rewrite SIZE_MOD_eq. lia. Qed.

Lemma to_size_t_add_l a b : to_size_t (to_size_t a + b) = to_size_t (a + b).
Proof. unfold to_size_t. apply Zplus_mod_idemp_l. Qed.

Lemma to_size_t_add_r a b : to_size_t (a + to_size_t b) = to_size_t (a + b).
Proof. unfold to_size_t. apply Zplus_mod_idemp_r. Qed.

Lemma to_size_t_mul_r a b : to_size_t (a * to_size_t b) = to_size_t (a * b).
Proof. unfold to_size_t. apply Zmult_mod_idemp_r. Qed.

Lemma to_size_t_mul_l a b : to_size_t (to_size_t a * b) = to_size_t (a * b).
Proof. unfold to_size_t. apply Zmult_mod_idemp_l. Qed.

Lemma to_size_t_sub_l a b : to_size_t (to_size_t a - b) = to_size_t (a - b).
Proof. unfold to_size_t. apply Zminus_mod_idemp_l. Qed.

Lemma uadd_small a b : 0 <= a + b < SIZE_MOD -> uadd a b = a + b.
Proof. apply to_size_t_small. Qed.

Lemma usub_small a b : 0 <= a - b < SIZE_MOD -> usub a b = a - b.
Proof. apply to_size_t_small. Qed.

(** ** Loops *)

(** With fuel for one more test than there are iterations, a loop whose
    variable runs through [a, a + len) is the body run on that range. *)
Lemma for_loop_seqZ {St : Type} (cond : Z -> bool) (body : Z -> St -> outcome St) :
  forall (n : nat) (fuel : nat) (a : Z) (s : St),
    0 <= a -> a + Z.of_nat n < SIZE_MOD ->
    (forall I, a <= I < a + Z.of_nat n -> cond I = true) ->
    cond (a + Z.of_nat n) = false ->
    (n < fuel)%nat ->
    for_loop fuel cond body a s = run_list body (seqZ a (Z.of_nat n)) s.
Proof.
  induction n as [|n IH]; intros fuel a s Ha Hlt Hin Hout Hfuel.
  - destruct fuel as [|fuel]; [lia|].
    rewrite seqZ_nil by lia. simpl.
    replace (a + Z.of_nat 0) with a in Hout by lia. rewrite Hout. reflexivity.
  - destruct fuel as [|fuel]; [lia|].
    rewrite seqZ_cons by lia. simpl.
    rewrite Hin by lia.
    destruct (body a s) as [s'| | |]; simpl; try reflexivity.
    rewrite uadd_small by lia.
    replace (Z.pred (Z.of_nat (S n))) with (Z.of_nat n) by lia.
    replace (Z.succ a) with (a + 1) by lia.
    apply IH; try lia.
    + intros I HI. apply Hin. lia.
    + replace (a + 1 + Z.of_nat n) with (a + Z.of_nat (S n)) by lia. exact Hout.
Qed.

(** More fuel, and a body that does the same whenever it finishes, do not
    change a result other than [OutOfFuel]. *)
Lemma for_loop_mono {St : Type} (cond : Z -> bool)
    (body body' : Z -> St -> outcome St) :
  (forall I s, body I s <> OutOfFuel -> body' I s = body I s) ->
  forall (fuel fuel' : nat) (I : Z) (s : St),
    (fuel <= fuel')%nat ->
    for_loop fuel cond body I s <> OutOfFuel ->
    for_loop fuel' cond body' I s = for_loop fuel cond body I s.
Proof.
  intros Hbody. induction fuel as [|fuel IH]; intros fuel' I s Hle Hr.
  - simpl in Hr. congruence.
  - destruct fuel' as [|fuel']; [lia|]. simpl in *.
    destruct (cond I); [|reflexivity].
    destruct (body I s) as [s'| | |] eqn:Eb; simpl in *.
    + rewrite Hbody by congruence. rewrite Eb. simpl. apply IH; [lia|exact Hr].
    + rewrite Hbody by congruence. rewrite Eb. reflexivity.
    + rewrite Hbody by congruence. rewrite Eb. reflexivity.
    + congruence.
Qed.

(** ** Counter *)

Lemma sumZ_nil : sumZ [] = 0.
Proof. reflexivity. Qed.

Lemma sumZ_cons x l : sumZ (x :: l) = x + sumZ l.
Proof. reflexivity. Qed.

Lemma sumZ_app l1 l2 : sumZ (l1 ++ l2) = sumZ l1 + sumZ l2.
Proof. induction l1 as [|x l1 IH]; simpl; [reflexivity|]. rewrite !sumZ_cons. lia. Qed.

(** A loop that adds [h i] to the running total, in [size_t]. *)
Lemma run_list_sum (body : Z -> Z -> outcome Z) (h : Z -> Z) (l : list Z) :
  (forall i t, i ∈ l -> body i t = Returns (uadd t (h i))) ->
  forall t, 0 <= t < SIZE_MOD ->
    run_list body l t = Returns (to_size_t (t + sumZ (h <$> l))).
Proof.
  induction l as [|i l IH]; intros Hbody t Ht; cbn [run_list].
  - rewrite fmap_nil, sumZ_nil, Z.add_0_r, to_size_t_small by exact Ht. reflexivity.
  - rewrite Hbody by apply list_elem_of_here. cbn [obind]. rewrite fmap_cons.
    rewrite IH.
    + unfold uadd. rewrite to_size_t_add_l, sumZ_cons. do 2 apply f_equal. lia.
    + intros j t' Hj. apply Hbody. apply list_elem_of_further, Hj.
    + apply to_size_t_range.
Qed.

Lemma sumZ_to_size_t_congr (h g : Z -> Z) (l : list Z) (t : Z) :
  (forall i, i ∈ l -> to_size_t (h i) = to_size_t (g i)) ->
  to_size_t (t + sumZ (h <$> l)) = to_size_t (t + sumZ (g <$> l)).
Proof.
  revert t. induction l as [|i l IH]; intros t Hl; [reflexivity|].
  rewrite !fmap_cons, !sumZ_cons.
  replace (t + (h i + sumZ (h <$> l))) with ((t + h i) + sumZ (h <$> l)) by lia.
  replace (t + (g i + sumZ (g <$> l))) with ((t + g i) + sumZ (g <$> l)) by lia.
  rewrite IH by (intros j Hj; apply Hl, list_elem_of_further, Hj).
  rewrite <- (to_size_t_add_l (t + h i)), <- (to_size_t_add_l (t + g i)).
  rewrite <- (to_size_t_add_r t (h i)), <- (to_size_t_add_r t (g i)).
  rewrite Hl by apply list_elem_of_here. reflexivity.
Qed.

Lemma num_unique_permutations_ge_min_unfold fuel N L MIN :
  num_unique_permutations_ge_min fuel N L MIN =
  if L =? 0 then Returns 1
  else if (L <? 0) || (usub N 2 <? MIN) then Returns 0
  else
    match fuel with
    | O => OutOfFuel
    | S fuel' =>
        for_loop fuel' (fun I => I <=? usub N 2)
          (fun I total =>
             r <- num_unique_permutations_ge_min fuel' N (usub L 1) I ;;
             Returns (uadd total (umul (usub (usub N I) 1) r)))
          (uadd MIN 1) 0
    end.
Proof. destruct fuel; reflexivity. Qed.

(** The loop of both counters: the sum, in [size_t], of the terms
    [(N - I - 1) * c I] for [I] from [a] to [N - 2]. *)
Lemma counter_loop (fuel : nat) (N a : Z) (sub : Z -> outcome Z) (c : Z -> Z) :
  2 <= N < SIZE_MOD -> 0 <= a <= N - 1 ->
  (Z.to_nat N <= fuel)%nat ->
  (forall i, a <= i <= N - 2 -> sub i = Returns (to_size_t (c i))) ->
  for_loop fuel (fun I => I <=? usub N 2)
    (fun I total => r <- sub I ;; Returns (uadd total (umul (usub (usub N I) 1) r)))
    a 0
  = Returns (to_size_t (sumZ ((fun i => (N - i - 1) * c i) <$> seqZ a (N - 1 - a)))).
Proof.
  intros HN Ha Hfuel Hsub.
  assert (HM := SIZE_MOD_eq).
  rewrite (usub_small N 2) by lia.
  replace (N - 1 - a) with (Z.of_nat (Z.to_nat (N - 1 - a))) by lia.
  rewrite (for_loop_seqZ _ _ (Z.to_nat (N - 1 - a))); try lia.
  - rewrite (run_list_sum _ (fun i => umul (usub (usub N i) 1) (to_size_t (c i)))).
    + apply f_equal.
      rewrite <- (Z.add_0_l (sumZ ((fun i => (N - i - 1) * c i) <$> _))).
      apply sumZ_to_size_t_congr.
      intros i Hi. apply elem_of_seqZ in Hi.
      unfold umul. rewrite to_size_t_idemp, to_size_t_mul_r.
      rewrite (usub_small N i) by lia. rewrite usub_small by lia. reflexivity.
    + intros i t Hi. apply elem_of_seqZ in Hi. rewrite Hsub by lia. reflexivity.
    + lia.
  - apply Z.leb_gt. lia.
Qed.

(** [num_unique_permutations_ge_min N L MIN] is, modulo [2^64], the number
    of lists of [L] swaps with increasing lower indices above [MIN]. *)
Lemma num_unique_permutations_ge_min_count :
  forall (r fuel : nat) (N MIN : Z),
    2 <= N < SIZE_MOD -> 0 <= MIN < SIZE_MOD -> Z.of_nat r < SIZE_MOD ->
    (r + Z.to_nat N <= fuel)%nat ->
    num_unique_permutations_ge_min fuel N (Z.of_nat r) MIN
    = Returns (to_size_t (count_sequences r N (MIN + 1))).
Proof.
  assert (HM := SIZE_MOD_eq).
  induction r as [|r IH]; intros fuel N MIN HN HMIN Hr Hfuel.
  - rewrite num_unique_permutations_ge_min_unfold. reflexivity.
  - rewrite num_unique_permutations_ge_min_unfold.
    destruct (Z.eqb_spec (Z.of_nat (S r)) 0) as [?|_]; [lia|].
    destruct (Z.ltb_spec (Z.of_nat (S r)) 0) as [?|_]; [lia|].
    rewrite (usub_small N 2) by lia. simpl orb.
    destruct (Z.ltb_spec (N - 2) MIN) as [Hgt|Hle].
    + simpl. rewrite seqZ_nil by lia. reflexivity.
    + destruct fuel as [|fuel]; [lia|].
      rewrite (uadd_small MIN 1) by lia.
      rewrite <- (usub_small N 2) by lia.
      rewrite (usub_small (Z.of_nat (S r)) 1) by lia.
      replace (Z.of_nat (S r) - 1) with (Z.of_nat r) by lia.
      rewrite (counter_loop fuel N (MIN + 1) _ (fun i => count_sequences r N (i + 1)));
        try lia.
      * reflexivity.
      * intros i Hi. apply IH; lia.
Qed.

Lemma num_unique_permutations_count (fuel : nat) (N L : Z) :
  2 <= N < SIZE_MOD -> 1 <= L <= N - 1 ->
  (Z.to_nat L + Z.to_nat N <= fuel)%nat ->
  num_unique_permutations fuel N L
  = Returns (to_size_t (count_sequences (Z.to_nat L) N 0)).
Proof.
  intros HN HL Hfuel. assert (HM := SIZE_MOD_eq).
  unfold num_unique_permutations.
  destruct (Z.eqb_spec L 0) as [?|_]; [lia|].
  rewrite (usub_small N 1) by lia.
  destruct (Z.ltb_spec (N - 1) L) as [?|_]; [lia|].
  rewrite (usub_small L 1) by lia.
  destruct (Z.to_nat L) as [|r] eqn:EL; [lia|].
  replace (L - 1) with (Z.of_nat r) by lia.
  rewrite (counter_loop fuel N 0 _ (fun i => count_sequences r N (i + 1))); try lia.
  - reflexivity.
  - intros i Hi. apply num_unique_permutations_ge_min_count; lia.
Qed.

(** ** The lists of swaps with increasing lower indices *)

Lemma all_sequences_S r N lo :
  all_sequences (S r) N lo =
  (seqZ lo (N - 1 - lo) ≫= fun i =>
     seqZ (i + 1) (N - (i + 1)) ≫= fun j =>
       cons {| first := i; second := j |} <$> all_sequences r N (i + 1)).
Proof. reflexivity. Qed.

Lemma count_sequences_S r N lo :
  count_sequences (S r) N lo =
  sumZ ((fun i => (N - i - 1) * count_sequences r N (i + 1)) <$> seqZ lo (N - 1 - lo)).
Proof. reflexivity. Qed.

Lemma bind_all_nil {A B : Type} (f : A -> list B) (l : list A) :
  (forall x, x ∈ l -> f x = []) -> l ≫= f = [].
Proof.
  induction l as [|x l IH]; intros H; [reflexivity|].
  rewrite bind_cons, H by apply list_elem_of_here.
  apply IH. intros y Hy. apply H, list_elem_of_further, Hy.
Qed.

Lemma length_bind_sum {A B : Type} (f : A -> list B) (l : list A) :
  Z.of_nat (length (l ≫= f)) = sumZ ((fun x => Z.of_nat (length (f x))) <$> l).
Proof.
  induction l as [|x l IH]; [reflexivity|].
  rewrite bind_cons, length_app, fmap_cons, sumZ_cons. lia.
Qed.

Lemma sumZ_const (c : Z) (l : list Z) (h : Z -> Z) :
  (forall x, x ∈ l -> h x = c) -> sumZ (h <$> l) = Z.of_nat (length l) * c.
Proof.
  induction l as [|x l IH]; intros H; [reflexivity|].
  rewrite fmap_cons, sumZ_cons, H by apply list_elem_of_here.
  rewrite IH by (intros y Hy; apply H, list_elem_of_further, Hy).
  simpl length. lia.
Qed.

Lemma sumZ_ext (h g : Z -> Z) (l : list Z) :
  (forall x, x ∈ l -> h x = g x) -> sumZ (h <$> l) = sumZ (g <$> l).
Proof.
  induction l as [|x l IH]; intros H; [reflexivity|].
  rewrite !fmap_cons, !sumZ_cons, H by apply list_elem_of_here.
  rewrite IH by (intros y Hy; apply H, list_elem_of_further, Hy). reflexivity.
Qed.

(** [count_sequences] counts [all_sequences]. *)
Lemma length_all_sequences r N lo :
  Z.of_nat (length (all_sequences r N lo)) = count_sequences r N lo.
Proof.
  revert lo. induction r as [|r IH]; intros lo; [reflexivity|].
  rewrite all_sequences_S, count_sequences_S, length_bind_sum.
  apply sumZ_ext. intros i Hi. apply elem_of_seqZ in Hi.
  rewrite length_bind_sum.
  rewrite (sumZ_const (count_sequences r N (i + 1))).
  - rewrite length_seqZ. lia.
  - intros j _. rewrite length_fmap. apply IH.
Qed.

Lemma count_sequences_nonneg r N lo : 0 <= count_sequences r N lo.
Proof. rewrite <- length_all_sequences. lia. Qed.

(** The members of [all_sequences r N lo] are the lists of [r] swaps whose
    lower indices increase from [lo] on. *)
Lemma elem_of_all_sequences r N lo s :
  0 <= lo ->
  s ∈ all_sequences r N lo <-> length s = r /\ increasing_from N lo s.
Proof.
  revert lo s. induction r as [|r IH]; intros lo s Hlo.
  - simpl. rewrite list_elem_of_singleton. split.
    + intros ->. split; [reflexivity|exact Logic.I].
    + intros [Hlen _]. destruct s; [reflexivity|discriminate].
  - rewrite all_sequences_S, list_elem_of_bind. split.
    + intros (i & Hs & Hi). apply elem_of_seqZ in Hi.
      apply list_elem_of_bind in Hs as (j & Hs & Hj). apply elem_of_seqZ in Hj.
      apply list_elem_of_fmap in Hs as (t & -> & Ht).
      apply IH in Ht as [Hlen Hinc]; [|lia].
      split; [simpl; congruence|].
      simpl. unfold pair_ok. simpl. repeat split; try lia. exact Hinc.
    + intros [Hlen Hinc]. destruct s as [|[i j] t]; [discriminate|].
      simpl in Hinc. destruct Hinc as (Hlo' & (H0 & Hij & HjN) & Hinc).
      simpl in *. exists i. split.
      * apply list_elem_of_bind. exists j. split.
        -- apply list_elem_of_fmap. exists t. split; [reflexivity|].
           apply IH; [lia|]. split; [congruence|exact Hinc].
        -- apply elem_of_seqZ. lia.
      * apply elem_of_seqZ. lia.
Qed.

Lemma all_sequences_NoDup r N lo : NoDup (all_sequences r N lo).
Proof.
  revert lo. induction r as [|r IH]; intros lo.
  - apply NoDup_singleton.
  - rewrite all_sequences_S. apply NoDup_bind.
    + intros i1 i2 s _ _ H1 H2.
      apply list_elem_of_bind in H1 as (j1 & H1 & _).
      apply list_elem_of_bind in H2 as (j2 & H2 & _).
      apply list_elem_of_fmap in H1 as (t1 & -> & _).
      apply list_elem_of_fmap in H2 as (t2 & E & _).
      congruence.
    + intros i _. apply NoDup_bind.
      * intros j1 j2 s _ _ H1 H2.
        apply list_elem_of_fmap in H1 as (t1 & -> & _).
        apply list_elem_of_fmap in H2 as (t2 & E & _).
        congruence.
      * intros j _. apply NoDup_fmap_2_strong; [|apply IH].
        intros t1 t2 _ _ E. congruence.
      * apply NoDup_seqZ.
    + apply NoDup_seqZ.
Qed.

(** No list of [r >= 1] swaps fits above [lo] when [lo + r > N - 1]. *)
Lemma all_sequences_nil r N lo :
  (1 <= r)%nat -> N - 1 < lo + Z.of_nat r -> all_sequences r N lo = [].
Proof.
  revert lo. induction r as [|r IH]; intros lo Hr Hroom; [lia|].
  rewrite all_sequences_S. apply bind_all_nil. intros i Hi.
  apply elem_of_seqZ in Hi. apply bind_all_nil. intros j _.
  destruct r as [|r]; [lia|].
  rewrite IH by lia. reflexivity.
Qed.

Lemma count_sequences_nil r N lo :
  (1 <= r)%nat -> N - 1 < lo + Z.of_nat r -> count_sequences r N lo = 0.
Proof.
  intros Hr Hroom. rewrite <- length_all_sequences, all_sequences_nil by assumption.
  reflexivity.
Qed.

(** With exactly as many levels as lower indices are left, the count is a
    factorial. *)
Lemma count_sequences_full r lo :
  count_sequences r (lo + Z.of_nat r + 1) lo = factorialZ r.
Proof.
  revert lo. induction r as [|r IH]; intros lo; [reflexivity|].
  rewrite count_sequences_S.
  rewrite seqZ_cons by lia. rewrite fmap_cons, sumZ_cons.
  rewrite (sumZ_const 0).
  - replace (lo + Z.of_nat (S r) + 1) with ((lo + 1) + Z.of_nat r + 1) by lia.
    rewrite IH. cbn [factorialZ]. lia.
  - intros i Hi. apply elem_of_seqZ in Hi.
    rewrite count_sequences_nil; [lia| |]; lia.
Qed.


Lemma increasing_from_head N lo p s :
  increasing_from N lo (p :: s) -> increasing_from N (first p) (p :: s).
Proof. simpl. intros (H1 & H2 & H3). split; [lia|]. split; assumption. Qed.

Lemma increasing_from_Forall N lo s :
  increasing_from N lo s -> Forall (fun p => lo <= first p /\ pair_ok N p) s.
Proof.
  revert lo. induction s as [|p s IH]; intros lo; simpl; [constructor|].
  intros (H1 & H2 & H3). constructor; [auto|].
  apply IH in H3. eapply Forall_impl; [|exact H3].
  simpl. intros q [Hq1 Hq2]. split; [lia|exact Hq2].
Qed.

Lemma increasing_from_well_formed N lo s :
  increasing_from N lo s -> well_formed N s.
Proof.
  intros Hinc. split.
  - apply increasing_from_Forall in Hinc.
    eapply Forall_impl; [|exact Hinc]. simpl. tauto.
  - revert lo Hinc. induction s as [|x s IH]; intros lo Hinc p q a b Hpq Hp Hq.
    + rewrite lookup_nil in Hp. discriminate.
    + simpl in Hinc. destruct Hinc as (H1 & H2 & H3).
      destruct q as [|q]; [lia|]. simpl in Hq.
      destruct p as [|p]; simpl in Hp.
      * injection Hp as <-.
        apply increasing_from_Forall in H3.
        rewrite Forall_forall in H3.
        assert (Hb : b ∈ s) by (eapply list_elem_of_lookup_2; exact Hq).
        apply list_elem_of_In in Hb.
        apply H3 in Hb. lia.
      * eapply (IH _ H3 p q); [lia|exact Hp|exact Hq].
Qed.

(** ** Executor *)

Section ExecutorFacts.
Context {A : Type}.
Implicit Types (l c : list A) (p : index_permutation).

Lemma in_bounds_spec l (i : Z) :
  in_bounds l i = true <-> 0 <= i < Z.of_nat (length l).
Proof. unfold in_bounds. rewrite andb_true_iff, Z.leb_le, Z.ltb_lt. tauto. Qed.

Lemma array_load_in_bounds l (i : Z) :
  0 <= i < Z.of_nat (length l) ->
  exists x, l !! Z.to_nat i = Some x /\ array_load l i = Returns x.
Proof.
  intros Hi. unfold array_load.
  rewrite (proj2 (in_bounds_spec l i) Hi).
  destruct (lookup_lt_is_Some_2 l (Z.to_nat i)) as [x Hx]; [lia|].
  exists x. rewrite Hx. auto.
Qed.

Lemma array_store_in_bounds l (i : Z) (v : A) :
  0 <= i < Z.of_nat (length l) ->
  array_store l i v = Returns (<[Z.to_nat i := v]> l).
Proof.
  intros Hi. unfold array_store.
  rewrite (proj2 (in_bounds_spec l i) Hi). reflexivity.
Qed.

Lemma array_load_out_of_bounds l (i : Z) :
  ~ 0 <= i < Z.of_nat (length l) -> array_load l i = Undefined.
Proof.
  intros Hi. unfold array_load.
  destruct (in_bounds l i) eqn:E; [|reflexivity].
  apply in_bounds_spec in E. contradiction.
Qed.


Lemma length_swap_at l (i j : nat) : length (swap_at l i j) = length l.
Proof.
  unfold swap_at. destruct (l !! i), (l !! j); try reflexivity.
  rewrite !length_insert. reflexivity.
Qed.

(** [swap_at] exchanges what is at [i] and [j] and nothing else. *)
Lemma lookup_swap_at l (i j a : nat) :
  (i < length l)%nat -> (j < length l)%nat ->
  swap_at l i j !! a
  = l !! (if decide (a = i) then j else if decide (a = j) then i else a).
Proof.
  intros Hi Hj. unfold swap_at.
  destruct (lookup_lt_is_Some_2 l i Hi) as [x Hx].
  destruct (lookup_lt_is_Some_2 l j Hj) as [y Hy].
  rewrite Hx, Hy.
  destruct (decide (a = j)) as [->|Haj].
  - rewrite list_lookup_insert_eq by (rewrite length_insert; lia).
    destruct (decide (j = i)) as [->|_]; congruence.
  - rewrite list_lookup_insert_ne by congruence.
    destruct (decide (a = i)) as [->|Hai].
    + rewrite list_lookup_insert_eq by lia. congruence.
    + rewrite list_lookup_insert_ne by congruence. reflexivity.
Qed.

Lemma lookup_swap_at_other l (i j a : nat) :
  a <> i -> a <> j -> swap_at l i j !! a = l !! a.
Proof.
  intros Hi Hj. unfold swap_at.
  destruct (l !! i), (l !! j); try reflexivity.
  rewrite !list_lookup_insert_ne by congruence. reflexivity.
Qed.

Lemma NoDup_swap_at l (i j : nat) : NoDup l -> NoDup (swap_at l i j).
Proof.
  intros Hl.
  destruct (decide (i < length l)%nat) as [Hi|Hi];
    [destruct (decide (j < length l)%nat) as [Hj|Hj]|].
  - apply NoDup_alt. intros a b x Ha Hb.
    rewrite lookup_swap_at in Ha, Hb by assumption.
    pose proof (proj1 (NoDup_alt l) Hl _ _ _ Ha Hb) as E.
    repeat case_decide; congruence.
  - unfold swap_at. rewrite (lookup_ge_None_2 l j) by lia.
    destruct (l !! i); exact Hl.
  - unfold swap_at. rewrite (lookup_ge_None_2 l i) by lia. exact Hl.
Qed.

Lemma iter_swap_in_bounds c (a b : Z) :
  0 <= a < Z.of_nat (length c) -> 0 <= b < Z.of_nat (length c) ->
  iter_swap c a b = Returns (swap_at c (Z.to_nat a) (Z.to_nat b)).
Proof.
  intros Ha Hb. unfold iter_swap, swap_at.
  destruct (array_load_in_bounds c a Ha) as (x & Hx & ->).
  destruct (array_load_in_bounds c b Hb) as (y & Hy & ->).
  cbn [obind]. rewrite array_store_in_bounds by assumption. cbn [obind].
  rewrite array_store_in_bounds by (rewrite length_insert; assumption).
  rewrite Hx, Hy. reflexivity.
Qed.

Lemma iter_swap_out_of_bounds c (a b : Z) :
  ~ (0 <= a < Z.of_nat (length c) /\ 0 <= b < Z.of_nat (length c)) ->
  iter_swap c a b = Undefined.
Proof.
  intros H. unfold iter_swap.
  destruct (decide (0 <= a < Z.of_nat (length c))) as [Ha|Ha].
  - destruct (array_load_in_bounds c a Ha) as (x & _ & ->). cbn [obind].
    rewrite array_load_out_of_bounds by tauto. reflexivity.
  - rewrite array_load_out_of_bounds by assumption. reflexivity.
Qed.

Lemma pair_in_bounds_length l l' p :
  length l = length l' -> pair_in_bounds l p -> pair_in_bounds l' p.
Proof. unfold pair_in_bounds. intros ->. auto. Qed.

Lemma apply_swaps_cons p s l :
  apply_swaps (p :: s) l
  = apply_swaps s (swap_at l (Z.to_nat (first p)) (Z.to_nat (second p))).
Proof. reflexivity. Qed.

Lemma length_apply_swaps s l : length (apply_swaps s l) = length l.
Proof.
  revert l. induction s as [|p s IH]; intros l; [reflexivity|].
  rewrite apply_swaps_cons, IH, length_swap_at. reflexivity.
Qed.

Lemma execute_loop_in_bounds PLIST (fr : exec_frame A) :
  Forall (pair_in_bounds (ex_OUT fr)) PLIST ->
  execute_loop PLIST fr
  = Returns {| ex_IN := ex_IN fr; ex_OUT := apply_swaps PLIST (ex_OUT fr) |}.
Proof.
  revert fr. induction PLIST as [|p s IH]; intros fr Hin.
  - destruct fr. reflexivity.
  - inversion Hin as [|? ? Hp Hs]; subst.
    cbn [execute_loop]. destruct Hp as [Hp1 Hp2].
    rewrite iter_swap_in_bounds by assumption. cbn [obind].
    rewrite IH; [reflexivity|]. cbn [ex_OUT].
    eapply Forall_impl; [|exact Hs].
    intros q. apply pair_in_bounds_length. rewrite length_swap_at. reflexivity.
Qed.

Lemma execute_loop_out_of_bounds PLIST (fr : exec_frame A) :
  Exists (fun p => ~ pair_in_bounds (ex_OUT fr) p) PLIST ->
  execute_loop PLIST fr = Undefined.
Proof.
  revert fr. induction PLIST as [|p s IH]; intros fr Hex.
  - inversion Hex.
  - cbn [execute_loop].
    destruct (decide (pair_in_bounds (ex_OUT fr) p)) as [Hp|Hp].
    + destruct Hp as [Hp1 Hp2].
      rewrite iter_swap_in_bounds by assumption. cbn [obind].
      apply IH. cbn [ex_OUT].
      inversion Hex as [? ? Hq|? ? Hq]; subst.
      * exfalso. apply Hq. split; assumption.
      * eapply Exists_impl; [|exact Hq].
        intros q Hn Hq'. apply Hn.
        eapply pair_in_bounds_length; [|exact Hq'].
        rewrite length_swap_at. reflexivity.
    + rewrite iter_swap_out_of_bounds by exact Hp. reflexivity.
Qed.

Lemma execute_permutations_in_bounds PLIST (IN : list A) :
  Forall (pair_in_bounds IN) PLIST ->
  execute_permutations PLIST IN = Returns (apply_swaps PLIST IN).
Proof.
  intros Hin. unfold execute_permutations, execute_permutations_frame.
  rewrite execute_loop_in_bounds by exact Hin. reflexivity.
Qed.
End ExecutorFacts.

(** ** Lists with increasing lower indices realise different permutations *)

Section Uniqueness.
Context {A : Type}.
Implicit Types (l : list A) (s t : list index_permutation).

(** Positions that no swap of [s] names keep their element. *)
Lemma apply_swaps_untouched s l (k : nat) :
  Forall (fun p => Z.to_nat (first p) <> k /\ Z.to_nat (second p) <> k) s ->
  apply_swaps s l !! k = l !! k.
Proof.
  revert l. induction s as [|p s IH]; intros l Hs; [reflexivity|].
  inversion Hs as [|? ? [Hp1 Hp2] Hs']; subst.
  rewrite apply_swaps_cons, IH by exact Hs'.
  apply lookup_swap_at_other; congruence.
Qed.

Lemma increasing_from_untouched N lo s (k : nat) :
  0 <= lo -> Z.of_nat k < lo -> increasing_from N lo s ->
  Forall (fun p => Z.to_nat (first p) <> k /\ Z.to_nat (second p) <> k) s.
Proof.
  intros Hlo Hk Hinc. apply increasing_from_Forall in Hinc.
  eapply Forall_impl; [|exact Hinc].
  intros p [H1 (H2 & H3 & H4)]. simpl in *. lia.
Qed.

Lemma increasing_from_in_bounds N lo s l :
  Z.of_nat (length l) = N -> increasing_from N lo s ->
  Forall (pair_in_bounds l) s.
Proof.
  intros HN Hinc. apply increasing_from_Forall in Hinc.
  eapply Forall_impl; [|exact Hinc].
  intros p [H1 (H2 & H3 & H4)]. unfold pair_in_bounds. lia.
Qed.

(** What a list starting with the swap [(i, j)] leaves at position [i]
    and below. *)
Lemma apply_swaps_head N lo p s l :
  Z.of_nat (length l) = N -> 0 <= lo ->
  increasing_from N lo (p :: s) ->
  apply_swaps (p :: s) l !! Z.to_nat (first p) = l !! Z.to_nat (second p).
Proof.
  intros HN Hlo (H1 & (H2 & H3 & H4) & Hs).
  rewrite apply_swaps_cons.
  rewrite (apply_swaps_untouched s).
  - rewrite lookup_swap_at by lia.
    rewrite decide_True by reflexivity. reflexivity.
  - eapply increasing_from_untouched; [| |exact Hs]; lia.
Qed.

Lemma apply_swaps_below N lo s l (k : nat) :
  0 <= lo -> Z.of_nat k < lo -> increasing_from N lo s ->
  apply_swaps s l !! k = l !! k.
Proof.
  intros Hlo Hk Hinc. apply apply_swaps_untouched.
  eapply increasing_from_untouched; eassumption.
Qed.

Lemma apply_swaps_inj N l :
  NoDup l -> Z.of_nat (length l) = N ->
  forall s t lo,
    0 <= lo -> length s = length t ->
    increasing_from N lo s -> increasing_from N lo t ->
    apply_swaps s l = apply_swaps t l -> s = t.
Proof.
  intros Hl HN s. revert l Hl HN.
  induction s as [|p s IH]; intros l Hl HN t lo Hlo Hlen Hs Ht E.
  - destruct t; [reflexivity|discriminate].
  - destruct t as [|q t]; [discriminate|].
    pose proof Hs as (Hp1 & (Hp2 & Hp3 & Hp4) & Hs').
    pose proof Ht as (Hq1 & (Hq2 & Hq3 & Hq4) & Ht').
    pose proof (apply_swaps_head N lo p s l HN Hlo Hs) as Hp.
    pose proof (apply_swaps_head N lo q t l HN Hlo Ht) as Hq.
    assert (Hfirst : first p = first q).
    { destruct (Z.lt_trichotomy (first p) (first q)) as [Hlt|[Heq|Hgt]];
        [exfalso|exact Heq|exfalso].
      - rewrite E in Hp.
        rewrite (apply_swaps_below N (first q) (q :: t)) in Hp; try lia.
        + destruct (lookup_lt_is_Some_2 l (Z.to_nat (first p))) as [x Hx]; [lia|].
          rewrite Hx in Hp. symmetry in Hp.
          pose proof (proj1 (NoDup_alt l) Hl _ _ _ Hx Hp). lia.
        + eapply increasing_from_head. exact Ht.
      - rewrite <- E in Hq.
        rewrite (apply_swaps_below N (first p) (p :: s)) in Hq; try lia.
        + destruct (lookup_lt_is_Some_2 l (Z.to_nat (first q))) as [x Hx]; [lia|].
          rewrite Hx in Hq. symmetry in Hq.
          pose proof (proj1 (NoDup_alt l) Hl _ _ _ Hx Hq). lia.
        + eapply increasing_from_head. exact Hs. }
    assert (Hsecond : second p = second q).
    { rewrite E, Hfirst, Hq in Hp.
      destruct (lookup_lt_is_Some_2 l (Z.to_nat (second p))) as [x Hx]; [lia|].
      rewrite Hx in Hp.
      pose proof (proj1 (NoDup_alt l) Hl _ _ _ Hx Hp). lia. }
    assert (Epq : p = q) by (destruct p, q; simpl in *; congruence).
    subst q. f_equal.
    rewrite !apply_swaps_cons in E.
    eapply (IH _ (NoDup_swap_at l _ _ Hl)); [| | |exact Hs'|exact Ht'|exact E].
    + rewrite length_swap_at. exact HN.
    + lia.
    + simpl in Hlen. congruence.
Qed.
End Uniqueness.

(** ** Enumerator *)

Lemma emit_app OUT k l1 l2 :
  emit OUT k (l1 ++ l2) = (r <- emit OUT k l1 ;; emit (fst r) (snd r) l2).
Proof.
  revert OUT k. induction l1 as [|s l1 IH]; intros OUT k; [reflexivity|].
  cbn [emit app]. destruct (OUT !! k); [apply IH|reflexivity].
Qed.

Lemma emit_fits l : forall OUT k,
  (k + length l <= length OUT)%nat ->
  emit OUT k l
  = Returns (take k OUT ++ l ++ drop (k + length l) OUT, (k + length l)%nat).
Proof.
  induction l as [|s l IH]; intros OUT k Hk; cbn [emit length].
  - rewrite Nat.add_0_r. cbn [app]. rewrite take_drop. reflexivity.
  - simpl in Hk.
    destruct (lookup_lt_is_Some_2 OUT k) as [x Hx]; [lia|]. rewrite Hx.
    rewrite IH by (rewrite length_insert; lia).
    rewrite drop_insert_lt by lia.
    rewrite (take_S_r _ _ s) by (apply list_lookup_insert_eq; lia).
    rewrite take_insert_ge by lia. rewrite <- app_assoc.
    replace (S k + length l)%nat with (k + S (length l))%nat by lia.
    reflexivity.
Qed.

Lemma emit_overflow l : forall OUT k,
  (k <= length OUT)%nat -> (length OUT < k + length l)%nat ->
  emit OUT k l = Undefined.
Proof.
  induction l as [|s l IH]; intros OUT k Hle Hk; cbn [emit]; simpl in Hk; [lia|].
  destruct (OUT !! k) as [x|] eqn:Hx; [|reflexivity].
  apply lookup_lt_Some in Hx.
  apply IH; rewrite length_insert; lia.
Qed.

Lemma emits_shorter pre p len r e :
  emits (pre ++ [p]) len r e -> emits pre len r e.
Proof.
  unfold emits. destruct r as [st| | |], e as [[OUT k]| | |]; auto.
  intros (H1 & H2 & H3 & H4). repeat split; try assumption.
  rewrite length_app in H3. simpl in H3.
  rewrite <- (take_app_length pre [p]) at 2. rewrite <- H3.
  rewrite take_take. f_equal. lia.
Qed.

(** A loop whose body writes [f i] writes them one range after the other. *)
Lemma run_list_emits (body : Z -> enum_state -> outcome enum_state)
    (f : Z -> list (list index_permutation)) pre len (l : list Z) :
  (forall i st, i ∈ l ->
     take (length pre) (es_TMP st) = pre -> length (es_TMP st) = len ->
     emits pre len (body i st) (emit (es_OUT st) (es_ELEMENT st) (f i))) ->
  forall st,
    take (length pre) (es_TMP st) = pre -> length (es_TMP st) = len ->
    emits pre len (run_list body l st)
      (emit (es_OUT st) (es_ELEMENT st) (l ≫= f)).
Proof.
  induction l as [|i l IH]; intros Hbody st Hpre Hlen.
  - simpl. auto.
  - cbn [run_list]. rewrite bind_cons, emit_app.
    pose proof (Hbody i st (list_elem_of_here _ _) Hpre Hlen) as Hi.
    unfold emits in Hi.
    destruct (body i st) as [st'| | |],
      (emit (es_OUT st) (es_ELEMENT st) (f i)) as [[OUT k]| | |];
      try contradiction; cbn [obind fst snd]; [|exact Logic.I].
    destruct Hi as (<- & <- & Hpre' & Hlen').
    apply IH; try assumption.
    intros j st'' Hj. apply Hbody, list_elem_of_further, Hj.
Qed.

Lemma fmap_bind_comm {A B C : Type} (g : B -> C) (f : A -> list B) (l : list A) :
  g <$> (l ≫= f) = l ≫= (fun x => g <$> f x).
Proof.
  induction l as [|x l IH]; [reflexivity|].
  rewrite !bind_cons, fmap_app, IH. reflexivity.
Qed.

Lemma bind_ext_in {A B : Type} (f g : A -> list B) (l : list A) :
  (forall x, x ∈ l -> f x = g x) -> l ≫= f = l ≫= g.
Proof.
  induction l as [|x l IH]; intros H; [reflexivity|].
  rewrite !bind_cons, H by apply list_elem_of_here.
  rewrite IH by (intros y Hy; apply H, list_elem_of_further, Hy). reflexivity.
Qed.

(** Two ranges from [a] give the same lists when [f] is empty from the end
    of the shorter one on. *)
Lemma bind_seqZ_agree {B : Type} (f : Z -> list B) (a len1 len2 : Z) :
  (forall i, a + Z.min len1 len2 <= i -> a <= i -> f i = []) ->
  seqZ a len1 ≫= f = seqZ a len2 ≫= f.
Proof.
  assert (Hle : forall m n, 0 <= m <= n ->
            (forall i, a + m <= i -> f i = []) ->
            seqZ a n ≫= f = seqZ a m ≫= f).
  { intros m n Hmn Hf. replace n with (m + (n - m)) by lia.
    rewrite seqZ_app by lia. rewrite bind_app.
    rewrite (bind_all_nil f (seqZ (a + m) (n - m))).
    - apply app_nil_r.
    - intros i Hi. apply elem_of_seqZ in Hi. apply Hf. lia. }
  intros Hf.
  destruct (Z.le_gt_cases len1 0) as [H1|H1];
    [|destruct (Z.le_gt_cases len2 0) as [H2|H2]].
  - rewrite (seqZ_nil a len1) by lia.
    symmetry. apply bind_all_nil. intros i Hi. apply elem_of_seqZ in Hi.
    apply Hf; lia.
  - rewrite (seqZ_nil a len2) by lia.
    apply bind_all_nil. intros i Hi. apply elem_of_seqZ in Hi.
    apply Hf; lia.
  - destruct (Z.le_gt_cases len1 len2).
    + symmetry. apply Hle; [lia|]. intros i Hi. apply Hf; lia.
    + apply Hle; [lia|]. intros i Hi. apply Hf; lia.
Qed.

Lemma fmap_app_cons (pre : list index_permutation) (p : index_permutation)
    (tails : list (list index_permutation)) :
  app pre <$> (cons p <$> tails) = app (pre ++ [p]) <$> tails.
Proof.
  induction tails as [|t tails IH]; [reflexivity|].
  rewrite !fmap_cons, IH, <- app_assoc. reflexivity.
Qed.

Lemma seqZ_to_nat a n : seqZ a (Z.of_nat (Z.to_nat n)) = seqZ a n.
Proof.
  destruct (Z.le_gt_cases 0 n); [rewrite Z2Nat.id by lia; reflexivity|].
  rewrite !seqZ_nil by lia. reflexivity.
Qed.

(** The bound of the loop on [I] with [S r] levels to go, in [size_t]. *)
Lemma loop_bound_cases N r :
  1 <= N <= INT_MAX -> Z.of_nat (S r) <= INT_MAX ->
  (0 <= N - Z.of_nat (S r) /\
   to_size_t (N - Z.of_nat (S r)) = N - Z.of_nat (S r)) \/
  (N - Z.of_nat (S r) < 0 /\
   to_size_t (N - Z.of_nat (S r)) = N - Z.of_nat (S r) + SIZE_MOD).
Proof.
  intros HN Hr. assert (HM := SIZE_MOD_eq). assert (HI := INT_MAX_eq).
  destruct (Z.le_gt_cases 0 (N - Z.of_nat (S r))) as [H|H]; [left|right];
    (split; [lia|]).
  - apply to_size_t_small. lia.
  - apply to_size_t_neg. lia.
Qed.

(** The lists with [S r] swaps, split as the two loops enumerate them: the
    range of [I] is the one of the code, up to its bound [B]. *)
Lemma all_sequences_loops pre r N a B :
  1 <= N <= INT_MAX -> Z.of_nat (S r) <= INT_MAX -> 0 <= a ->
  B = to_size_t (N - Z.of_nat (S r)) ->
  app pre <$> all_sequences (S r) N a
  = seqZ a (B - a) ≫= fun i =>
      seqZ (i + 1) (N - (i + 1)) ≫= fun j =>
        app pre <$> (cons {| first := i; second := j |} <$> all_sequences r N (i + 1)).
Proof.
  intros HN Hr Ha ->. assert (HM := SIZE_MOD_eq). assert (HI := INT_MAX_eq).
  rewrite all_sequences_S, fmap_bind_comm.
  rewrite (bind_ext_in _ (fun i => seqZ (i + 1) (N - (i + 1)) ≫= fun j =>
             app pre <$> (cons {| first := i; second := j |}
                            <$> all_sequences r N (i + 1))))
    by (intros i _; apply fmap_bind_comm).
  apply bind_seqZ_agree. intros i Hi Hai.
  destruct (Z.le_gt_cases (N - 1) i) as [Hbig|Hsmall].
  - rewrite seqZ_nil by lia. reflexivity.
  - apply bind_all_nil. intros j _.
    destruct (loop_bound_cases N r HN Hr) as [[H0 E]|[H0 E]];
      rewrite E in Hi; [|lia].
    destruct r as [|r]; [lia|].
    rewrite all_sequences_nil by lia. reflexivity.
Qed.

(** Storing the pair at the current level, then the levels below. *)
Lemma store_emits (rec : enum_state -> outcome enum_state) pre len (Xs : Z)
    (p : index_permutation) (tails : list (list index_permutation))
    (st : enum_state) :
  Xs = Z.of_nat (length pre) -> (length pre < len)%nat ->
  take (length pre) (es_TMP st) = pre -> length (es_TMP st) = len ->
  (forall st',
     take (length (pre ++ [p])) (es_TMP st') = pre ++ [p] ->
     length (es_TMP st') = len ->
     emits (pre ++ [p]) len (rec st')
       (emit (es_OUT st') (es_ELEMENT st') (app (pre ++ [p]) <$> tails))) ->
  emits pre len
    (tmp <- array_store (es_TMP st) Xs p ;; rec (set_TMP st tmp))
    (emit (es_OUT st) (es_ELEMENT st) (app pre <$> (cons p <$> tails))).
Proof.
  intros -> Hlt Hpre Hlen Hrec.
  rewrite array_store_in_bounds by lia. cbn [obind].
  rewrite Nat2Z.id, fmap_app_cons.
  apply emits_shorter with (p := p).
  apply (Hrec (set_TMP st (<[length pre := p]> (es_TMP st)))); cbn [set_TMP es_TMP].
  - rewrite length_app. cbn [length]. rewrite Nat.add_1_r.
    rewrite (take_S_r _ _ p) by (apply list_lookup_insert_eq; lia).
    rewrite take_insert_ge by lia. rewrite Hpre. reflexivity.
  - rewrite length_insert. exact Hlen.
Qed.

(** The two nested loops on [I] and [J], as [inner_permutation_loop] and
    [get_all_unique_permutations] have them, with [rec I] for the call
    into the next level. *)
Lemma loop_nest_emits (fuel : nat) (N : Z) (r : nat) (B Xs a : Z) (len : nat)
    (pre : list index_permutation)
    (rec : Z -> enum_state -> outcome enum_state) (st : enum_state) :
  1 <= N <= INT_MAX -> Z.of_nat (S r) <= INT_MAX ->
  B = to_size_t (N - Z.of_nat (S r)) ->
  Xs = Z.of_nat (length pre) -> (length pre < len)%nat ->
  0 <= a <= INT_MAX ->
  (Z.to_nat B < fuel)%nat -> (Z.to_nat N < fuel)%nat ->
  take (length pre) (es_TMP st) = pre -> length (es_TMP st) = len ->
  (forall i j st',
     a <= i -> i < j < N ->
     take (length (pre ++ [{| first := i; second := j |}])) (es_TMP st')
       = pre ++ [{| first := i; second := j |}] ->
     length (es_TMP st') = len ->
     emits (pre ++ [{| first := i; second := j |}]) len (rec i st')
       (emit (es_OUT st') (es_ELEMENT st')
          (app (pre ++ [{| first := i; second := j |}])
             <$> all_sequences r N (i + 1)))) ->
  emits pre len
    (for_loop fuel (fun I => I <? B)
       (fun I st =>
          for_loop fuel (fun J => J <? to_size_t N)
            (fun J st =>
               tmp <- array_store (es_TMP st) Xs {| first := I; second := J |} ;;
               rec I (set_TMP st tmp))
            (uadd I 1) st)
       a st)
    (emit (es_OUT st) (es_ELEMENT st) (app pre <$> all_sequences (S r) N a)).
Proof.
  intros HN Hr HB HXs Hlt Ha HfB HfN Hpre Hlen Hrec.
  assert (HM := SIZE_MOD_eq). assert (HI := INT_MAX_eq).
  assert (HBr : 0 <= B < SIZE_MOD) by (rewrite HB; apply to_size_t_range).
  rewrite (all_sequences_loops pre r N a B) by (try assumption; lia).
  rewrite (for_loop_seqZ _ _ (Z.to_nat (B - a))); try lia.
  2: { apply Z.ltb_ge. lia. }
  rewrite seqZ_to_nat.
  apply run_list_emits; [|assumption|assumption].
  clear st Hpre Hlen. intros i st Hi Hpre Hlen. apply elem_of_seqZ in Hi.
  rewrite (to_size_t_small N) by lia.
  rewrite (uadd_small i 1) by lia.
  rewrite (for_loop_seqZ _ _ (Z.to_nat (N - (i + 1)))); try lia.
  2: { apply Z.ltb_ge. lia. }
  rewrite seqZ_to_nat.
  apply run_list_emits; [|assumption|assumption].
  clear st Hpre Hlen. intros j st Hj Hpre Hlen. apply elem_of_seqZ in Hj.
  apply store_emits; try assumption.
  intros st' Hpre' Hlen'. apply Hrec; try assumption; lia.
Qed.

Lemma inner_permutation_loop_unfold fuel N LMAX L X MIN st :
  inner_permutation_loop fuel N LMAX L X MIN st =
  if (LMAX - 1 <? X) || (L <? 0) then copy_out st
  else
    match fuel with
    | O => OutOfFuel
    | S fuel' =>
        for_loop fuel' (fun I => I <? to_size_t (Z.min (N - L) (N - 1)))
          (fun I st =>
             for_loop fuel' (fun J => J <? to_size_t N)
               (fun J st =>
                  tmp <- array_store (es_TMP st) (to_size_t X)
                           {| first := I; second := J |} ;;
                  inner_permutation_loop fuel' N LMAX (L - 1) (X + 1)
                    (to_int (uadd I 1)) (set_TMP st tmp))
               (uadd I 1) st)
          (to_size_t MIN) st
    end.
Proof. destruct fuel; reflexivity. Qed.

Lemma copy_out_emits st :
  emits (es_TMP st) (length (es_TMP st)) (copy_out st)
    (emit (es_OUT st) (es_ELEMENT st) [es_TMP st]).
Proof.
  unfold copy_out. cbn [emit].
  destruct (es_OUT st !! es_ELEMENT st); [|exact Logic.I].
  cbn [emits es_OUT es_ELEMENT es_TMP]. repeat split.
  apply take_ge. lia.
Qed.

(** [inner_permutation_loop] at level [X] with [r = LMAX - X] levels to go
    writes the lists that extend the first [X] entries of [TMP] by the
    lists of [r] swaps with lower indices from [MIN] on.  [W] bounds the
    number of iterations of a loop. *)
Section InnerLoop.
Variables (N LMAX : Z) (W : nat).
Hypothesis HN : 1 <= N <= INT_MAX.
Hypothesis HL : 1 <= LMAX <= INT_MAX.
Hypothesis HW1 : N < Z.of_nat W.
Hypothesis HW2 : N < LMAX -> SIZE_MOD <= Z.of_nat W.

Lemma inner_permutation_loop_emits :
  forall (r fuel : nat) (X MIN : Z) (st : enum_state),
    X = LMAX - Z.of_nat r -> 0 <= X ->
    0 <= MIN <= INT_MAX ->
    length (es_TMP st) = Z.to_nat LMAX ->
    (r + W <= fuel)%nat ->
    emits (take (Z.to_nat X) (es_TMP st)) (Z.to_nat LMAX)
      (inner_permutation_loop fuel N LMAX (Z.of_nat r) X MIN st)
      (emit (es_OUT st) (es_ELEMENT st)
         (app (take (Z.to_nat X) (es_TMP st)) <$> all_sequences r N MIN)).
Proof using HN HL HW1 HW2.
  assert (HM := SIZE_MOD_eq). assert (HI := INT_MAX_eq).
  induction r as [|r IH]; intros fuel X MIN st HX HX0 HMIN Hlen Hfuel.
  - rewrite inner_permutation_loop_unfold.
    destruct (Z.ltb_spec (LMAX - 1) X) as [_|?]; [|lia]. cbn [orb].
    rewrite take_ge by lia.
    cbn [all_sequences]. rewrite fmap_cons, fmap_nil, app_nil_r.
    rewrite <- Hlen. apply copy_out_emits.
  - rewrite inner_permutation_loop_unfold.
    destruct (Z.ltb_spec (LMAX - 1) X) as [?|_]; [lia|].
    destruct (Z.ltb_spec (Z.of_nat (S r)) 0) as [?|_]; [lia|]. cbn [orb].
    destruct fuel as [|fuel]; [lia|].
    rewrite Z.min_l by lia.
    rewrite (to_size_t_small MIN), (to_size_t_small X) by lia.
    set (pre := take (Z.to_nat X) (es_TMP st)).
    assert (Hpre : length pre = Z.to_nat X)
      by (unfold pre; rewrite length_take; lia).
    apply (loop_nest_emits fuel N r _ X MIN (Z.to_nat LMAX) pre
             (fun I => inner_permutation_loop fuel N LMAX (Z.of_nat (S r) - 1)
                         (X + 1) (to_int (uadd I 1))));
      try assumption; try reflexivity; try lia.
    + destruct (loop_bound_cases N r HN ltac:(lia)) as [[H0 E]|[H0 E]];
        rewrite E; [lia|].
      pose proof (to_size_t_range (N - Z.of_nat (S r))) as Hr. rewrite E in Hr.
      pose proof (HW2 ltac:(lia)). lia.
    + rewrite Hpre. reflexivity.
    + intros i j st' Hi Hj Hpre' Hlen'.
      rewrite (uadd_small i 1) by lia. rewrite to_int_small by lia.
      replace (Z.of_nat (S r) - 1) with (Z.of_nat r) by lia.
      assert (HX' : Z.to_nat (X + 1)
                    = length (pre ++ [{| first := i; second := j |}]))
        by (rewrite length_app, Hpre; simpl; lia).
      assert (H := IH fuel (X + 1) (i + 1) st' ltac:(lia) ltac:(lia)
                     ltac:(lia) Hlen' ltac:(lia)).
      rewrite HX', Hpre' in H. exact H.
Qed.
End InnerLoop.

Lemma get_all_unique_permutations_unfold fuel heap N L TMP0 :
  L <> 0 ->
  get_all_unique_permutations fuel heap N L TMP0 =
  (n <- num_unique_permutations fuel (to_size_t N) (to_size_t L) ;;
   OUT <- vector_new heap n (row_bytes L)
            (replicate (Z.to_nat L) {| first := 0; second := 0 |}) ;;
   st <- for_loop fuel (fun I => I <? to_size_t (Z.min (N - L) (N - 1)))
           (fun I st =>
              for_loop fuel (fun J => J <? to_size_t N)
                (fun J st =>
                   tmp <- array_store (es_TMP st) 0
                            {| first := I; second := J |} ;;
                   inner_permutation_loop fuel N L (L - 1) (0 + 1)
                     (to_int (uadd I 1)) (set_TMP st tmp))
                (uadd I 1) st)
           0 {| es_TMP := TMP0; es_OUT := OUT; es_ELEMENT := 0 |} ;;
   Returns (es_OUT st)).
Proof.
  intros HL. unfold get_all_unique_permutations.
  destruct (Z.eqb_spec L 0) as [?|_]; [contradiction|]. reflexivity.
Qed.

(** The loops of [get_all_unique_permutations] write all the lists of [L]
    swaps, whatever [OUT] is. *)
Lemma get_all_loops_emits fuel N L TMP0 OUT :
  1 <= N <= INT_MAX -> 1 <= L <= INT_MAX ->
  length TMP0 = Z.to_nat L ->
  (enough_fuel N L <= fuel)%nat ->
  emits [] (Z.to_nat L)
    (for_loop fuel (fun I => I <? to_size_t (Z.min (N - L) (N - 1)))
       (fun I st =>
          for_loop fuel (fun J => J <? to_size_t N)
            (fun J st =>
               tmp <- array_store (es_TMP st) 0 {| first := I; second := J |} ;;
               inner_permutation_loop fuel N L (L - 1) (0 + 1)
                 (to_int (uadd I 1)) (set_TMP st tmp))
            (uadd I 1) st)
       0 {| es_TMP := TMP0; es_OUT := OUT; es_ELEMENT := 0 |})
    (emit OUT 0 (all_sequences (Z.to_nat L) N 0)).
Proof.
  intros HN HL Hlen Hfuel.
  assert (HM := SIZE_MOD_eq). assert (HI := INT_MAX_eq).
  unfold enough_fuel in Hfuel.
  set (W := (Z.to_nat (if (N <? L)%Z then SIZE_MOD else N) + 1)%nat) in *.
  assert (HW1 : N < Z.of_nat W) by (unfold W; destruct (Z.ltb_spec N L); lia).
  assert (HW2 : N < L -> SIZE_MOD <= Z.of_nat W)
    by (unfold W; destruct (Z.ltb_spec N L); lia).
  destruct (Z.to_nat L) as [|r] eqn:EL; [lia|].
  rewrite Z.min_l by lia.
  rewrite <- (list_fmap_id (all_sequences (S r) N 0)).
  change (@id (list index_permutation)) with (@app index_permutation []).
  apply (loop_nest_emits fuel N r _ 0 0 (S r) []
           (fun I => inner_permutation_loop fuel N L (L - 1) (0 + 1)
                       (to_int (uadd I 1))));
    try assumption; try reflexivity; cbn [length]; try lia.
  - f_equal. lia.
  - destruct (loop_bound_cases N r HN ltac:(lia)) as [[H0 E]|[H0 E]].
    + replace L with (Z.of_nat (S r)) by lia. rewrite E. lia.
    + pose proof (to_size_t_range (N - L)) as Hr.
      specialize (HW2 ltac:(lia)). lia.
  - intros i j st' Hi Hj Hpre' Hlen'.
    rewrite (uadd_small i 1) by lia. rewrite to_int_small by lia.
    replace (L - 1) with (Z.of_nat r) by lia.
    assert (H := inner_permutation_loop_emits N L W HN HL HW1 HW2
                   r fuel (0 + 1) (i + 1) st'
                   ltac:(lia) ltac:(lia) ltac:(lia) ltac:(lia) ltac:(lia)).
    cbn [app length] in Hpre'. change (Z.to_nat (0 + 1)) with 1%nat in H.
    rewrite Hpre', EL in H. exact H.
Qed.

(** The counter at any level [L >= 1], for enough fuel. *)
Lemma num_unique_permutations_run fuel N L :
  1 <= N <= INT_MAX -> 1 <= L <= INT_MAX ->
  (enough_fuel N L <= fuel)%nat ->
  num_unique_permutations fuel N L
  = Returns (to_size_t (count_sequences (Z.to_nat L) N 0)).
Proof.
  intros HN HL Hfuel.
  assert (HM := SIZE_MOD_eq). assert (HI := INT_MAX_eq).
  destruct (Z.le_gt_cases L (N - 1)) as [Hle|Hgt].
  - apply num_unique_permutations_count; try lia.
    unfold enough_fuel in Hfuel. destruct (Z.ltb_spec N L); lia.
  - rewrite count_sequences_nil by lia.
    unfold num_unique_permutations.
    destruct (Z.eqb_spec L 0) as [?|_]; [lia|].
    rewrite (usub_small N 1) by lia.
    destruct (Z.ltb_spec (N - 1) L) as [_|?]; [reflexivity|lia].
Qed.

(** What [get_all_unique_permutations] does at a level [L >= 1], for
    enough fuel: it throws when the vector of the counted size cannot be
    built; otherwise it returns all the lists of [L] swaps when their
    number fits in [size_t], and runs past the end of [OUT] when it does
    not. *)
Lemma get_all_unique_permutations_run fuel heap N L TMP0 :
  1 <= N <= INT_MAX -> 1 <= L <= INT_MAX ->
  length TMP0 = Z.to_nat L ->
  (enough_fuel N L <= fuel)%nat ->
  get_all_unique_permutations fuel heap N L TMP0
  = if vector_fits heap (to_size_t (count_sequences (Z.to_nat L) N 0))
         (row_bytes L)
    then if count_sequences (Z.to_nat L) N 0 <? SIZE_MOD
         then Returns (all_sequences (Z.to_nat L) N 0)
         else Undefined
    else Throws.
Proof.
  intros HN HL Hlen Hfuel.
  assert (HM := SIZE_MOD_eq). assert (HI := INT_MAX_eq).
  rewrite get_all_unique_permutations_unfold by lia.
  replace (num_unique_permutations fuel (to_size_t N) (to_size_t L))
    with (num_unique_permutations fuel N L)
    by (rewrite !to_size_t_small by lia; reflexivity).
  rewrite num_unique_permutations_run by assumption. cbn [obind].
  unfold vector_new.
  destruct (vector_fits heap (to_size_t (count_sequences (Z.to_nat L) N 0))
              (row_bytes L)); [|reflexivity].
  cbn [obind].
  set (OUT := replicate _ _).
  pose proof (get_all_loops_emits fuel N L TMP0 OUT HN HL Hlen Hfuel) as H.
  pose proof (length_all_sequences (Z.to_nat L) N 0) as Hcount.
  pose proof (to_size_t_range (count_sequences (Z.to_nat L) N 0)) as Hrange.
  assert (HOUT : length OUT
                 = Z.to_nat (to_size_t (count_sequences (Z.to_nat L) N 0)))
    by (unfold OUT; apply length_replicate).
  destruct (Z.ltb_spec (count_sequences (Z.to_nat L) N 0) SIZE_MOD) as [Hfit|Hbig].
  - rewrite to_size_t_small in HOUT by lia.
    rewrite emit_fits in H by lia. unfold emits in H.
    destruct (for_loop _ _ _ _ _) as [st| | |]; try contradiction.
    destruct H as (H1 & _). cbn [obind]. rewrite H1.
    rewrite take_0, drop_ge by lia. cbn [app]. rewrite app_nil_r. reflexivity.
  - rewrite emit_overflow in H by lia. unfold emits in H.
    destruct (for_loop _ _ _ _ _) as [st| | |]; try contradiction. reflexivity.
Qed.

(** ** More fuel does not change a result *)

Lemma obind_mono {A B : Type} (m m' : outcome A) (k k' : A -> outcome B) :
  (m <> OutOfFuel -> m' = m) ->
  (forall a, k a <> OutOfFuel -> k' a = k a) ->
  obind m k <> OutOfFuel -> obind m' k' = obind m k.
Proof.
  intros Hm Hk H. destruct m as [a| | |]; cbn [obind] in *;
    try (rewrite Hm by discriminate; reflexivity).
  - rewrite Hm by discriminate. cbn [obind]. apply Hk, H.
  - congruence.
Qed.

Lemma num_unique_permutations_ge_min_mono :
  forall (fuel fuel' : nat) (N L MIN : Z),
    (fuel <= fuel')%nat ->
    num_unique_permutations_ge_min fuel N L MIN <> OutOfFuel ->
    num_unique_permutations_ge_min fuel' N L MIN
    = num_unique_permutations_ge_min fuel N L MIN.
Proof.
  induction fuel as [|fuel IH]; intros fuel' N L MIN Hle;
    rewrite (num_unique_permutations_ge_min_unfold fuel' N L MIN),
            (num_unique_permutations_ge_min_unfold _ N L MIN);
    destruct (L =? 0); try reflexivity;
    destruct ((L <? 0) || (usub N 2 <? MIN)); try reflexivity.
  - congruence.
  - destruct fuel' as [|fuel']; [lia|]. intros H.
    apply for_loop_mono; [|lia|exact H].
    intros I s. apply obind_mono; [|reflexivity].
    apply IH. lia.
Qed.

Lemma num_unique_permutations_mono (fuel fuel' : nat) (N L : Z) :
  (fuel <= fuel')%nat ->
  num_unique_permutations fuel N L <> OutOfFuel ->
  num_unique_permutations fuel' N L = num_unique_permutations fuel N L.
Proof.
  intros Hle. unfold num_unique_permutations.
  destruct (L =? 0); [reflexivity|].
  destruct (usub N 1 <? L); [reflexivity|]. intros H.
  apply for_loop_mono; [|exact Hle|exact H].
  intros I s. apply obind_mono; [|reflexivity].
  apply num_unique_permutations_ge_min_mono, Hle.
Qed.

Lemma inner_permutation_loop_mono (N LMAX : Z) :
  forall (fuel fuel' : nat) (L X MIN : Z) (st : enum_state),
    (fuel <= fuel')%nat ->
    inner_permutation_loop fuel N LMAX L X MIN st <> OutOfFuel ->
    inner_permutation_loop fuel' N LMAX L X MIN st
    = inner_permutation_loop fuel N LMAX L X MIN st.
Proof.
  induction fuel as [|fuel IH]; intros fuel' L X MIN st Hle;
    rewrite (inner_permutation_loop_unfold fuel' N LMAX L X MIN st),
            (inner_permutation_loop_unfold _ N LMAX L X MIN st);
    destruct ((LMAX - 1 <? X) || (L <? 0)); try reflexivity.
  - congruence.
  - destruct fuel' as [|fuel']; [lia|]. intros H.
    apply for_loop_mono; [|lia|exact H].
    intros I s. apply for_loop_mono; [|lia].
    intros J s'. apply obind_mono; [reflexivity|].
    intros tmp. apply IH. lia.
Qed.

Lemma get_all_unique_permutations_mono (fuel fuel' : nat) (heap N L : Z) TMP0 :
  (fuel <= fuel')%nat ->
  get_all_unique_permutations fuel heap N L TMP0 <> OutOfFuel ->
  get_all_unique_permutations fuel' heap N L TMP0
  = get_all_unique_permutations fuel heap N L TMP0.
Proof.
  intros Hle. unfold get_all_unique_permutations.
  apply obind_mono; [apply num_unique_permutations_mono, Hle|].
  intros n. apply obind_mono; [reflexivity|].
  intros OUT. destruct (L =? 0); [reflexivity|].
  apply obind_mono; [|reflexivity].
  apply for_loop_mono; [|exact Hle].
  intros I s. apply for_loop_mono; [|exact Hle].
  intros J s'. apply obind_mono; [reflexivity|].
  intros tmp. apply inner_permutation_loop_mono, Hle.
Qed.

(** Whenever [get_all_unique_permutations] returns, at a level [L >= 1],
    it returns all the lists of [L] swaps, their number fits in [size_t],
    and the vector of that many lists could be built. *)
Lemma get_all_unique_permutations_returns fuel heap N L TMP0 out :
  1 <= N <= INT_MAX -> 1 <= L <= INT_MAX ->
  length TMP0 = Z.to_nat L ->
  get_all_unique_permutations fuel heap N L TMP0 = Returns out ->
  out = all_sequences (Z.to_nat L) N 0 /\
  count_sequences (Z.to_nat L) N 0 < SIZE_MOD /\
  vector_fits heap (count_sequences (Z.to_nat L) N 0) (row_bytes L) = true.
Proof.
  intros HN HL Hlen Hout.
  pose proof (get_all_unique_permutations_mono fuel
                (Nat.max fuel (enough_fuel N L)) heap N L TMP0 ltac:(lia))
    as Hmono.
  rewrite Hout in Hmono. specialize (Hmono ltac:(discriminate)).
  rewrite get_all_unique_permutations_run in Hmono by (try assumption; lia).
  destruct (vector_fits heap (to_size_t (count_sequences (Z.to_nat L) N 0))
              (row_bytes L)) eqn:Hfits; [|discriminate].
  destruct (Z.ltb_spec (count_sequences (Z.to_nat L) N 0) SIZE_MOD);
    [|discriminate].
  rewrite to_size_t_small in Hfits
    by (pose proof (count_sequences_nonneg (Z.to_nat L) N 0); lia).
  split; [congruence|]. split; assumption.
Qed.

(** A vector that can be built has fewer than [2^63] elements. *)
Lemma vector_fits_bound heap n L :
  1 <= L -> vector_fits heap n (row_bytes L) = true -> n <= PTRDIFF_MAX.
Proof.
  intros HL H. unfold vector_fits in H.
  apply andb_true_iff in H as [H _]. apply Z.leb_le in H.
  unfold row_bytes in H. destruct (Z.eqb_spec L 0) as [?|_]; [lia|].
  assert (PTRDIFF_MAX / (16 * L) <= PTRDIFF_MAX); [|lia].
  apply Z.div_le_upper_bound; [lia|]. unfold PTRDIFF_MAX. nia.
Qed.

(** With enough fuel, [get_all_unique_permutations] returns all the lists
    of [L] swaps as soon as the vector of that many lists can be built. *)
Lemma get_all_unique_permutations_fits fuel heap N L TMP0 :
  1 <= N <= INT_MAX -> 1 <= L <= INT_MAX ->
  length TMP0 = Z.to_nat L ->
  vector_fits heap (count_sequences (Z.to_nat L) N 0) (row_bytes L) = true ->
  (enough_fuel N L <= fuel)%nat ->
  get_all_unique_permutations fuel heap N L TMP0
  = Returns (all_sequences (Z.to_nat L) N 0) /\
  count_sequences (Z.to_nat L) N 0 < SIZE_MOD.
Proof.
  intros HN HL Hlen Hfits Hfuel. assert (HM := SIZE_MOD_eq).
  pose proof (vector_fits_bound heap _ L ltac:(lia) Hfits) as Hb.
  pose proof (count_sequences_nonneg (Z.to_nat L) N 0) as Hnn.
  assert (Hlt : count_sequences (Z.to_nat L) N 0 < SIZE_MOD)
    by (unfold PTRDIFF_MAX in Hb; lia).
  split; [|exact Hlt].
  rewrite get_all_unique_permutations_run by assumption.
  rewrite to_size_t_small by lia. rewrite Hfits.
  destruct (Z.ltb_spec (count_sequences (Z.to_nat L) N 0) SIZE_MOD);
    [reflexivity|lia].
Qed.


(** A loop whose test never fails, over a body that returns or runs out of
    fuel, never ends. *)
Lemma for_loop_diverges {St : Type} (cond : Z -> bool)
    (body : Z -> St -> outcome St) :
  (forall I, 0 <= I < SIZE_MOD -> cond I = true) ->
  (forall I s, 0 <= I < SIZE_MOD ->
     body I s = OutOfFuel \/ exists s', body I s = Returns s') ->
  forall (fuel : nat) (I : Z) (s : St),
    0 <= I < SIZE_MOD -> for_loop fuel cond body I s = OutOfFuel.
Proof.
  intros Hcond Hbody. induction fuel as [|fuel IH]; intros I s HI; [reflexivity|].
  cbn [for_loop]. rewrite Hcond by exact HI.
  destruct (Hbody I s HI) as [->|[s' ->]]; [reflexivity|]. cbn [obind].
  apply IH. apply to_size_t_range.
Qed.

(** With [N = 1] the bound [N - 2] of the loop of
    [num_unique_permutations_ge_min] wraps around to the largest [size_t]:
    the guard [MIN > N - 2] never holds and the loop never ends. *)
Lemma num_unique_permutations_ge_min_one_diverges :
  forall (fuel : nat) (L MIN : Z),
    1 <= L < SIZE_MOD -> 0 <= MIN < SIZE_MOD ->
    num_unique_permutations_ge_min fuel 1 L MIN = OutOfFuel.
Proof.
  assert (HM := SIZE_MOD_eq).
  induction fuel as [|fuel IH]; intros L MIN HL HMIN;
    rewrite num_unique_permutations_ge_min_unfold;
    destruct (Z.eqb_spec L 0) as [?|_]; try lia;
    destruct (Z.ltb_spec L 0) as [?|_]; try lia;
    change (usub 1 2) with (SIZE_MOD - 1);
    destruct (Z.ltb_spec (SIZE_MOD - 1) MIN) as [?|_]; try lia;
    cbn [orb]; [reflexivity|].
  apply for_loop_diverges.
  - intros I HI. apply Z.leb_le. lia.
  - intros I s HI.
    destruct (Z.eq_dec L 1) as [->|HL1].
    + right. rewrite num_unique_permutations_ge_min_unfold.
      change (usub 1 1 =? 0) with true. cbn [obind]. eauto.
    + left. rewrite IH; [reflexivity| |exact HI].
      rewrite usub_small by lia. lia.
  - apply to_size_t_range.
Qed.

(** ** A bound on the counts, and the counts at [N = 0] *)

Lemma factorialZ_S r : factorialZ (S r) = Z.of_nat (S r) * factorialZ r.
Proof. reflexivity. Qed.

Lemma factorialZ_pos r : 0 < factorialZ r.
Proof. induction r as [|r IH]; [reflexivity|]. rewrite factorialZ_S. lia. Qed.

Lemma factorialZ_mono r r' : (r <= r')%nat -> factorialZ r <= factorialZ r'.
Proof.
  induction 1 as [|r' _ IH]; [lia|].
  rewrite factorialZ_S. pose proof (factorialZ_pos r'). nia.
Qed.

Lemma sumZ_le (h g : Z -> Z) (l : list Z) :
  (forall x, x ∈ l -> h x <= g x) -> sumZ (h <$> l) <= sumZ (g <$> l).
Proof.
  induction l as [|x l IH]; intros H; [reflexivity|].
  rewrite !fmap_cons, !sumZ_cons.
  pose proof (H x (list_elem_of_here _ _)).
  pose proof (IH (fun y Hy => H y (list_elem_of_further _ _ _ Hy))). lia.
Qed.

(** The sum of [m * m!] for [m] from 1 to [M] is below [(M + 1)!]. *)
Lemma weighted_factorial_sum N :
  forall (n : nat) (lo : Z),
    Z.of_nat n = N - 1 - lo ->
    sumZ ((fun i => (N - i - 1) * factorialZ (Z.to_nat (N - i - 1)))
            <$> seqZ lo (N - 1 - lo))
    <= factorialZ (Z.to_nat (N - lo)).
Proof.
  induction n as [|n IH]; intros lo Hn.
  - rewrite seqZ_nil by lia. pose proof (factorialZ_pos (Z.to_nat (N - lo))).
    rewrite fmap_nil, sumZ_nil. lia.
  - rewrite seqZ_cons by lia. rewrite fmap_cons, sumZ_cons.
    replace (Z.pred (N - 1 - lo)) with (N - 1 - Z.succ lo) by lia.
    specialize (IH (Z.succ lo) ltac:(lia)).
    replace (Z.to_nat (N - Z.succ lo)) with (Z.to_nat (N - lo - 1)) in IH
      by (f_equal; lia).
    replace (Z.to_nat (N - lo)) with (S (Z.to_nat (N - lo - 1))) by lia.
    rewrite factorialZ_S. lia.
Qed.

Lemma count_sequences_le_factorial r N lo :
  count_sequences r N lo <= factorialZ (Z.to_nat (N - lo)).
Proof.
  revert lo. induction r as [|r IH]; intros lo.
  - pose proof (factorialZ_pos (Z.to_nat (N - lo))). simpl. lia.
  - rewrite count_sequences_S.
    destruct (Z.le_gt_cases 0 (N - 1 - lo)) as [Hle|Hgt].
    + etransitivity;
        [|apply (weighted_factorial_sum N (Z.to_nat (N - 1 - lo)) lo); lia].
      apply sumZ_le. intros i Hi. apply elem_of_seqZ in Hi.
      specialize (IH (i + 1)).
      replace (Z.to_nat (N - (i + 1))) with (Z.to_nat (N - i - 1)) in IH
        by (f_equal; lia).
      nia.
    + rewrite seqZ_nil by lia. pose proof (factorialZ_pos (Z.to_nat (N - lo))).
      rewrite fmap_nil, sumZ_nil. lia.
Qed.

(** Up to 20 elements every count fits in [size_t]. *)
Lemma count_sequences_fits r N :
  1 <= N <= 20 -> count_sequences r N 0 < SIZE_MOD.
Proof.
  intros HN.
  pose proof (count_sequences_le_factorial r N 0) as H.
  pose proof (factorialZ_mono (Z.to_nat (N - 0)) 20 ltac:(lia)) as H20.
  assert (factorialZ 20 < SIZE_MOD) by reflexivity. lia.
Qed.

Lemma sumZ_neg_succ (n : nat) :
  2 * sumZ ((fun i => - i - 1) <$> seqZ 0 (Z.of_nat n))
  = - (Z.of_nat n * (Z.of_nat n + 1)).
Proof.
  induction n as [|n IH]; [reflexivity|].
  rewrite seqZ_S, fmap_app, sumZ_app, fmap_cons, fmap_nil, sumZ_cons, sumZ_nil.
  lia.
Qed.

(** With [N = 0] and [L = 1] the loop of [num_unique_permutations] runs
    for [I] from 0 to [2^64 - 2] and adds [2^64 - 1 - I] each time: the
    total is [2^63], modulo [2^64]. *)
Lemma num_unique_permutations_zero_one (fuel : nat) :
  (Z.to_nat SIZE_MOD <= fuel)%nat ->
  num_unique_permutations fuel 0 1 = Returns (2 ^ 63).
Proof.
  intros Hfuel. assert (HM := SIZE_MOD_eq).
  unfold num_unique_permutations.
  change (1 =? 0) with false. change (usub 0 1 <? 1) with false.
  change (usub 0 2) with (SIZE_MOD - 2). change (usub 1 1) with 0. cbv iota.
  rewrite (for_loop_seqZ _ _ (Z.to_nat (SIZE_MOD - 1))); try lia.
  2: { apply Z.leb_gt. lia. }
  rewrite (run_list_sum _ (fun i => umul (usub (usub 0 i) 1) 1)).
  - apply (f_equal Returns).
    rewrite (sumZ_to_size_t_congr _ (fun i => - i - 1)).
    + pose proof (sumZ_neg_succ (Z.to_nat (SIZE_MOD - 1))) as H.
      rewrite Z2Nat.id in * by lia.
      replace (SIZE_MOD - 1 + 1) with (2 * 2 ^ 63) in H by (rewrite HM; lia).
      assert (E : sumZ ((fun i => - i - 1) <$> seqZ 0 (SIZE_MOD - 1))
                  = - ((SIZE_MOD - 1) * 2 ^ 63)) by lia.
      rewrite E. reflexivity.
    + intros i _. unfold umul, usub.
      rewrite Z.mul_1_r, !to_size_t_idemp, to_size_t_sub_l.
      apply (f_equal to_size_t). lia.
  - intros i t _. rewrite num_unique_permutations_ge_min_unfold. reflexivity.
  - lia.
Qed.

(** * The claims *)

(** ** Counter *)

(** C9: for every [N >= 1], [num_unique_permutations(N, 0)] is 1, and
    [num_unique_permutations(N, L)] is 0 whenever [L > N - 1] (for [size_t]
    arguments; neither case needs fuel). *)
Theorem num_unique_permutations_base_cases (fuel : nat) (N L : Z) :
  1 <= N < SIZE_MOD -> 0 <= L < SIZE_MOD ->
  num_unique_permutations fuel N 0 = Returns 1 /\
  (N - 1 < L -> num_unique_permutations fuel N L = Returns 0).
Proof.
  intros HN HL. split; [reflexivity|]. intros Hgt.
  unfold num_unique_permutations.
  destruct (Z.eqb_spec L 0) as [?|_]; [lia|].
  rewrite usub_small by lia.
  destruct (Z.ltb_spec (N - 1) L) as [_|?]; [reflexivity|lia].
Qed.

Lemma num_unique_permutations_base_cases_witness :
  (1 <= 4 < SIZE_MOD /\ 0 <= 7 < SIZE_MOD) /\
  num_unique_permutations 0 4 0 = Returns 1 /\
  (4 - 1 < 7 -> num_unique_permutations 0 4 7 = Returns 0).
Proof.
  assert (H4 : 1 <= 4 < SIZE_MOD) by (unfold SIZE_MOD; lia).
  assert (H7 : 0 <= 7 < SIZE_MOD) by (unfold SIZE_MOD; lia).
  split; [split; assumption|].
  exact (num_unique_permutations_base_cases 0 4 7 H4 H7).
Defined.

(** C8, as the code has it: with [N = 0], [num_unique_pairs(0)] and
    [num_unique_pairs_ge_min(0, 0)] are 0, and the base case [L = 0] of both
    permutation counters comes before every guard on [N]:
    [num_unique_permutations_ge_min(0, 0, MIN)] and
    [num_unique_permutations(0, 0)] are 1, not 0. *)
Theorem counter_at_zero :
  num_unique_pairs 0 = 0 /\
  num_unique_pairs_ge_min 0 0 = 0 /\
  (forall fuel MIN, num_unique_permutations_ge_min fuel 0 0 MIN = Returns 1) /\
  (forall fuel, num_unique_permutations fuel 0 0 = Returns 1).
Proof.
  repeat split.
  intros fuel MIN. rewrite num_unique_permutations_ge_min_unfold. reflexivity.
Qed.

(** C8 as stated fails: with [N = 0] the level-0 counts are 1, and the
    guards, written in unsigned arithmetic, let [MIN = 1] and
    [MIN = 2^64 - 3] through; [num_unique_permutations(0, 1)] is [2^63]. *)
Lemma counter_at_zero_not_all_zero :
  num_unique_permutations 0 0 0 = Returns 1 /\
  num_unique_permutations_ge_min 0 0 0 5 = Returns 1 /\
  num_unique_pairs_ge_min 0 1 = 1 /\
  num_unique_permutations_ge_min 3 0 1 (SIZE_MOD - 3) = Returns 1 /\
  exists fuel, num_unique_permutations fuel 0 1 = Returns (2 ^ 63).
Proof.
  repeat split.
  exists (Z.to_nat SIZE_MOD).
  exact (num_unique_permutations_zero_one _ (le_n _)).
Qed.

(** C5, at the failing input: with [N = 4], [L = 1], [MIN = 0] the code
    returns 3, the number of single swaps with a lower index above 0, where
    the 6 swaps [(0,1), (0,2), (0,3), (1,2), (1,3), (2,3)] have a lower
    index [>= 0] (and [num_unique_pairs_ge_min(4, 0)] is 6). *)
Theorem num_unique_permutations_ge_min_off_by_one :
  num_unique_permutations_ge_min 5 4 1 0 = Returns 3 /\
  all_sequences 1 4 0
  = (fun p => [{| first := fst p; second := snd p |}])
      <$> [(0, 1); (0, 2); (0, 3); (1, 2); (1, 3); (2, 3)] /\
  all_sequences 1 4 1
  = (fun p => [{| first := fst p; second := snd p |}])
      <$> [(1, 2); (1, 3); (2, 3)] /\
  num_unique_pairs_ge_min 4 0 = 6.
Proof. repeat split. Qed.

(** ** Executor *)

(** C3: on a list of in-bounds index pairs, [execute_permutations] returns
    the input with the pairs of positions swapped in the order of the list
    (a collection of the same length), and the caller's collection is as it
    was. *)
Theorem execute_permutations_swaps {A : Type}
    (PLIST : list index_permutation) (IN : list A) :
  Forall (pair_in_bounds IN) PLIST ->
  execute_permutations PLIST IN = Returns (apply_swaps PLIST IN) /\
  length (apply_swaps PLIST IN) = length IN /\
  exists fr,
    execute_permutations_frame PLIST IN = Returns fr /\
    ex_IN fr = IN /\ ex_OUT fr = apply_swaps PLIST IN.
Proof.
  intros Hin. split; [apply execute_permutations_in_bounds, Hin|].
  split; [apply length_apply_swaps|].
  unfold execute_permutations_frame.
  rewrite execute_loop_in_bounds by exact Hin.
  eexists. split; [reflexivity|]. split; reflexivity.
Qed.

Lemma execute_permutations_swaps_witness :
  Forall (pair_in_bounds [10; 20; 30])
    [{| first := 0; second := 1 |}; {| first := 1; second := 2 |}] /\
  execute_permutations
    [{| first := 0; second := 1 |}; {| first := 1; second := 2 |}] [10; 20; 30]
  = Returns [20; 30; 10] /\
  length [20; 30; 10] = length [10; 20; 30] /\
  exists fr,
    execute_permutations_frame
      [{| first := 0; second := 1 |}; {| first := 1; second := 2 |}] [10; 20; 30]
    = Returns fr /\
    ex_IN fr = [10; 20; 30] /\ ex_OUT fr = [20; 30; 10].
Proof.
  assert (H : Forall (pair_in_bounds [10; 20; 30])
                [{| first := 0; second := 1 |}; {| first := 1; second := 2 |}])
    by (repeat constructor; simpl; lia).
  split; [exact H|].
  exact (execute_permutations_swaps _ [10; 20; 30] H).
Defined.

(** C7, as the code has it: [execute_permutations] checks no bound.  With a
    pair that is not within the bounds of the collection the behaviour is
    undefined: nothing is returned, no error is signalled, no index is
    clamped. *)
Theorem execute_permutations_out_of_bounds_undefined {A : Type}
    (PLIST : list index_permutation) (IN : list A) :
  Exists (fun p => ~ pair_in_bounds IN p) PLIST ->
  execute_permutations PLIST IN = Undefined.
Proof.
  intros Hex. unfold execute_permutations, execute_permutations_frame.
  rewrite execute_loop_out_of_bounds by exact Hex. reflexivity.
Qed.

Lemma execute_permutations_out_of_bounds_undefined_witness :
  Exists (fun p => ~ pair_in_bounds [10; 20] p)
    [{| first := 0; second := 1 |}; {| first := 0; second := 2 |}] /\
  execute_permutations
    [{| first := 0; second := 1 |}; {| first := 0; second := 2 |}] [10; 20]
  = Undefined.
Proof.
  assert (H : Exists (fun p => ~ pair_in_bounds [10; 20] p)
                [{| first := 0; second := 1 |}; {| first := 0; second := 2 |}])
    by (apply Exists_cons_tl, Exists_cons_hd; unfold pair_in_bounds; simpl; lia).
  split; [exact H|].
  exact (execute_permutations_out_of_bounds_undefined _ [10; 20] H).
Defined.

(** C7 as stated fails: on the pair [(0, 2)] and a collection of two
    elements no bounds error is signalled. *)
Lemma execute_permutations_no_bounds_error :
  execute_permutations [{| first := 0; second := 2 |}] [10; 20] <> Throws /\
  execute_permutations [{| first := 0; second := 2 |}] [10; 20] = Undefined.
Proof. split; [discriminate|reflexivity]. Qed.

(** ** Enumerator *)


(** C4, on the code: at level 0 the one list of [OUT] is a
    [std::array] of no element, and the write of the sentinel [{0,0}] at
    its position 0 is outside it: [OUT[0]] is there, [OUT[0][0]] is not,
    and the call is undefined for every [N], whenever the vector of that
    one list (one byte) is built at all. *)
Theorem get_all_unique_permutations_sentinel_out_of_bounds
    (fuel : nat) (heap N : Z) (TMP0 : list index_permutation) :
  array_load (replicate 1 (replicate 0 {| first := 0; second := 0 |})) 0
    = Returns [] /\
  array_store (@nil index_permutation) 0 {| first := 0; second := 0 |}
    = Undefined /\
  get_all_unique_permutations fuel heap N 0 TMP0
  = if 1 <=? heap then Undefined else Throws.
Proof.
  split; [reflexivity|]. split; [reflexivity|].
  unfold get_all_unique_permutations, num_unique_permutations.
  change (to_size_t 0 =? 0) with true. cbn [obind].
  unfold vector_new, vector_fits.
  change (row_bytes 0) with 1.
  change (1 <=? PTRDIFF_MAX / 1) with true.
  change (1 =? 0) with false. change (1 * 1) with 1.
  cbn [andb orb].
  destruct (1 <=? heap); reflexivity.
Qed.

(** C10, on the code: at level 0 the enumeration returns no list at all,
    for every [N]: the write of the sentinel is undefined (the defect of
    C4), so there is no returned sequence to execute. *)
Theorem get_all_unique_permutations_level_zero_never_returns
    (fuel : nat) (heap N : Z) (TMP0 : list index_permutation)
    (out : list (list index_permutation)) :
  get_all_unique_permutations fuel heap N 0 TMP0 <> Returns out.
Proof.
  unfold get_all_unique_permutations, num_unique_permutations.
  change (to_size_t 0 =? 0) with true. cbn [obind].
  unfold vector_new.
  destruct (vector_fits heap 1 (row_bytes 0)); discriminate.
Qed.




(** C6: every list that [get_all_unique_permutations] returns for
    [1 <= L <= N - 1] has pairs with [first < second <= N - 1] and lower
    indices that grow by at least one from a position to any later one;
    and what it returns for some fuel, it returns for every fuel that is
    enough. *)
Theorem get_all_unique_permutations_well_formed (fuel : nat) (heap N L : Z)
    (TMP0 : list index_permutation) (out : list (list index_permutation)) :
  1 <= N <= INT_MAX -> 1 <= L <= N - 1 ->
  length TMP0 = Z.to_nat L ->
  get_all_unique_permutations fuel heap N L TMP0 = Returns out ->
  Forall (well_formed N) out /\
  (forall fuel', (enough_fuel N L <= fuel')%nat ->
     get_all_unique_permutations fuel' heap N L TMP0 = Returns out).
Proof.
  intros HN HL Hlen Hout.
  apply get_all_unique_permutations_returns in Hout as (-> & Hfit & Hfits);
    try lia.
  split.
  - apply Forall_forall. intros s Hs. apply list_elem_of_In in Hs.
    apply elem_of_all_sequences in Hs as [_ Hs]; [|lia].
    eapply increasing_from_well_formed, Hs.
  - intros fuel' Hfuel.
    apply get_all_unique_permutations_fits; try assumption; lia.
Qed.

Lemma get_all_unique_permutations_well_formed_witness :
  (1 <= 4 <= INT_MAX /\ 1 <= 2 <= 4 - 1 /\
   length (replicate 2 {| first := 9; second := 9 |}) = Z.to_nat 2 /\
   get_all_unique_permutations 7 4096 4 2
     (replicate 2 {| first := 9; second := 9 |})
     = Returns (all_sequences 2 4 0)) /\
  Forall (well_formed 4) (all_sequences 2 4 0) /\
  (forall fuel', (enough_fuel 4 2 <= fuel')%nat ->
     get_all_unique_permutations fuel' 4096 4 2
       (replicate 2 {| first := 9; second := 9 |})
     = Returns (all_sequences 2 4 0)).
Proof.
  assert (H1 : 1 <= 4 <= INT_MAX) by (unfold INT_MAX; lia).
  assert (H2 : 1 <= 2 <= 4 - 1) by lia.
  assert (H3 : length (replicate 2 {| first := 9; second := 9 |}) = Z.to_nat 2)
    by reflexivity.
  assert (H4 : get_all_unique_permutations 7 4096 4 2
                 (replicate 2 {| first := 9; second := 9 |})
               = Returns (all_sequences 2 4 0)) by (vm_compute; reflexivity).
  split; [exact (conj H1 (conj H2 (conj H3 H4)))|].
  exact (get_all_unique_permutations_well_formed 7 4096 4 2 _ _ H1 H2 H3 H4).
Defined.

(** C2: for [1 <= L <= N - 1], executing every list that
    [get_all_unique_permutations] returns on one collection of [N] distinct
    elements gives collections that differ from one another; and what
    the enumeration returns for some fuel, it returns for every fuel that
    is enough. *)
Theorem get_all_unique_permutations_distinct {A : Type} (fuel : nat)
    (heap N L : Z)
    (TMP0 : list index_permutation) (out : list (list index_permutation))
    (ref : list A) :
  1 <= N <= INT_MAX -> 1 <= L <= N - 1 ->
  length TMP0 = Z.to_nat L ->
  NoDup ref -> Z.of_nat (length ref) = N ->
  get_all_unique_permutations fuel heap N L TMP0 = Returns out ->
  (exists results,
     Forall2 (fun s res => execute_permutations s ref = Returns res) out results /\
     NoDup results) /\
  (forall fuel', (enough_fuel N L <= fuel')%nat ->
     get_all_unique_permutations fuel' heap N L TMP0 = Returns out).
Proof.
  intros HN HL Hlen Hnd Href Hout.
  apply get_all_unique_permutations_returns in Hout as (-> & Hfit & Hfits);
    try lia.
  split.
  - set (seqs := all_sequences (Z.to_nat L) N 0).
    assert (Hseqs : forall s, s ∈ seqs ->
              length s = Z.to_nat L /\ increasing_from N 0 s).
    { intros s Hs. apply elem_of_all_sequences in Hs; [exact Hs|lia]. }
    exists ((fun s => apply_swaps s ref) <$> seqs). split.
    + apply Forall2_fmap_r, Forall_Forall2_diag, Forall_forall.
      intros s Hs. apply list_elem_of_In, Hseqs in Hs as [_ Hs].
      apply execute_permutations_in_bounds.
      eapply increasing_from_in_bounds; eassumption.
    + apply NoDup_fmap_2_strong; [|apply all_sequences_NoDup].
      intros s t Hs Ht E.
      apply Hseqs in Hs as [Hs1 Hs2]. apply Hseqs in Ht as [Ht1 Ht2].
      eapply (apply_swaps_inj N ref Hnd Href s t 0); try eassumption; [lia|].
      congruence.
  - intros fuel' Hfuel.
    apply get_all_unique_permutations_fits; try assumption; lia.
Qed.

Lemma get_all_unique_permutations_distinct_witness :
  (1 <= 4 <= INT_MAX /\ 1 <= 2 <= 4 - 1 /\
   length (replicate 2 {| first := 9; second := 9 |}) = Z.to_nat 2 /\
   NoDup [0; 1; 2; 3] /\ Z.of_nat (length [0; 1; 2; 3]) = 4 /\
   get_all_unique_permutations 7 4096 4 2
     (replicate 2 {| first := 9; second := 9 |})
     = Returns (all_sequences 2 4 0)) /\
  (exists results,
     Forall2 (fun s res => execute_permutations s [0; 1; 2; 3] = Returns res)
       (all_sequences 2 4 0) results /\
     NoDup results) /\
  (forall fuel', (enough_fuel 4 2 <= fuel')%nat ->
     get_all_unique_permutations fuel' 4096 4 2
       (replicate 2 {| first := 9; second := 9 |})
     = Returns (all_sequences 2 4 0)).
Proof.
  assert (H1 : 1 <= 4 <= INT_MAX) by (unfold INT_MAX; lia).
  assert (H2 : 1 <= 2 <= 4 - 1) by lia.
  assert (H3 : length (replicate 2 {| first := 9; second := 9 |}) = Z.to_nat 2)
    by reflexivity.
  assert (H4 : NoDup [0; 1; 2; 3])
    by (apply (bool_decide_unpack _); vm_compute; exact Logic.I).
  assert (H5 : Z.of_nat (length [0; 1; 2; 3]) = 4) by reflexivity.
  assert (H6 : get_all_unique_permutations 7 4096 4 2
                 (replicate 2 {| first := 9; second := 9 |})
               = Returns (all_sequences 2 4 0)) by (vm_compute; reflexivity).
  split; [exact (conj H1 (conj H2 (conj H3 (conj H4 (conj H5 H6)))))|].
  exact (get_all_unique_permutations_distinct 7 4096 4 2 _ _ [0; 1; 2; 3]
           H1 H2 H3 H4 H5 H6).
Defined.

(** * Further properties of the code *)

(** ** The counters of pairs *)

Lemma elem_of_pairs_between N lo hi p :
  p ∈ pairs_between N lo hi <->
  lo <= first p < hi /\ first p < second p <= N - 1.
Proof.
  unfold pairs_between. rewrite list_elem_of_bind. split.
  - intros (i & Hp & Hi). apply elem_of_seqZ in Hi.
    apply list_elem_of_fmap in Hp as (j & -> & Hj). apply elem_of_seqZ in Hj.
    simpl. lia.
  - intros [H1 H2]. exists (first p). split; [|apply elem_of_seqZ; lia].
    apply list_elem_of_fmap. exists (second p). split; [destruct p; reflexivity|].
    apply elem_of_seqZ. lia.
Qed.

Lemma pairs_between_NoDup N lo hi : NoDup (pairs_between N lo hi).
Proof.
  unfold pairs_between. apply NoDup_bind; [| |apply NoDup_seqZ].
  - intros i1 i2 p _ _ H1 H2.
    apply list_elem_of_fmap in H1 as (j1 & -> & _).
    apply list_elem_of_fmap in H2 as (j2 & E & _). congruence.
  - intros i _. apply NoDup_fmap_2_strong; [|apply NoDup_seqZ].
    intros j1 j2 _ _ E. congruence.
Qed.

Lemma sumZ_descending N :
  forall (n : nat) (lo : Z),
    2 * sumZ ((fun i => N - (i + 1)) <$> seqZ lo (Z.of_nat n))
    = Z.of_nat n * (2 * N - 1 - 2 * lo - Z.of_nat n).
Proof.
  induction n as [|n IH]; intros lo; [reflexivity|].
  rewrite seqZ_cons by lia. rewrite fmap_cons, sumZ_cons.
  replace (Z.pred (Z.of_nat (S n))) with (Z.of_nat n) by lia.
  specialize (IH (Z.succ lo)). lia.
Qed.

(** Twice the number of pairs with a lower index in [lo, hi). *)
Lemma length_pairs_between N lo hi :
  lo <= hi <= N ->
  2 * Z.of_nat (length (pairs_between N lo hi))
  = (hi - lo) * (2 * N - 1 - lo - hi).
Proof.
  intros H. unfold pairs_between. rewrite length_bind_sum.
  rewrite (sumZ_ext _ (fun i => N - (i + 1))).
  - rewrite <- (seqZ_to_nat lo (hi - lo)), sumZ_descending.
    rewrite Z2Nat.id by lia. ring.
  - intros i Hi. apply elem_of_seqZ in Hi.
    rewrite length_fmap, length_seqZ. lia.
Qed.

Lemma pairs_between_app N lo mid hi :
  lo <= mid <= hi ->
  pairs_between N lo hi = pairs_between N lo mid ++ pairs_between N mid hi.
Proof.
  intros H. unfold pairs_between.
  replace (hi - lo) with ((mid - lo) + (hi - mid)) by lia.
  rewrite seqZ_app by lia. rewrite bind_app.
  replace (lo + (mid - lo)) with mid by lia. reflexivity.
Qed.

(** [num_unique_pairs], [num_unique_pairs_ge_min] and
    [num_unique_pairs_lt_max] where their products do not wrap around. *)
Lemma num_unique_pairs_length N :
  0 <= N <= 2 ^ 32 ->
  num_unique_pairs N = Z.of_nat (length (pairs_between N 0 N)).
Proof.
  intros HN. assert (HM := SIZE_MOD_eq).
  pose proof (length_pairs_between N 0 N ltac:(lia)) as Hlen.
  unfold num_unique_pairs, udiv, umul.
  destruct (Z.ltb_spec 0 N) as [Hpos|?].
  - rewrite usub_small by lia. rewrite to_size_t_small by nia.
    replace (N * (N - 1)) with (2 * Z.of_nat (length (pairs_between N 0 N)))
      by (rewrite Hlen; ring).
    rewrite Z.mul_comm, Z.div_mul by lia. reflexivity.
  - replace N with 0 by lia. reflexivity.
Qed.

Lemma num_unique_pairs_ge_min_length N MIN :
  2 <= N <= 2 ^ 32 -> 0 <= MIN < SIZE_MOD ->
  num_unique_pairs_ge_min N MIN = Z.of_nat (length (pairs_between N MIN N)).
Proof.
  intros HN HMIN. assert (HM := SIZE_MOD_eq).
  unfold num_unique_pairs_ge_min, udiv, umul.
  rewrite (usub_small N 2) by lia.
  destruct (Z.leb_spec MIN (N - 2)) as [Hle|Hgt].
  - pose proof (length_pairs_between N MIN N ltac:(lia)) as Hlen.
    rewrite (usub_small N MIN) by lia. rewrite (usub_small _ 1) by lia.
    destruct (Z.ltb_spec 0 (N - MIN)) as [_|?]; [|lia]. cbn [andb].
    rewrite to_size_t_small by nia.
    replace ((N - MIN) * (N - MIN - 1))
      with (2 * Z.of_nat (length (pairs_between N MIN N)))
      by (rewrite Hlen; ring).
    rewrite Z.mul_comm, Z.div_mul by lia. reflexivity.
  - rewrite andb_false_r.
    assert (E : pairs_between N MIN N = []).
    { unfold pairs_between. apply bind_all_nil. intros i Hi.
      apply elem_of_seqZ in Hi. rewrite seqZ_nil by lia. reflexivity. }
    rewrite E. reflexivity.
Qed.

Lemma num_unique_pairs_lt_max_length N MAX :
  0 <= MAX <= N -> 1 <= N <= 2 ^ 32 ->
  num_unique_pairs_lt_max N MAX = Z.of_nat (length (pairs_between N 0 MAX)).
Proof.
  intros HMAX HN. assert (HM := SIZE_MOD_eq).
  pose proof (length_pairs_between N 0 MAX ltac:(lia)) as Hlen.
  unfold num_unique_pairs_lt_max, udiv, umul, usub.
  destruct (Z.ltb_spec 0 N) as [_|?]; [|lia].
  destruct (Z.leb_spec 0 MAX) as [_|?]; [|lia]. cbn [andb].
  rewrite to_size_t_mul_l, to_size_t_sub_l.
  assert (Hwrap : to_size_t (to_size_t (2 * N * MAX) - to_size_t (MAX * MAX) - MAX)
                  = to_size_t (2 * N * MAX - MAX * MAX - MAX)).
  { unfold to_size_t at 2 3.
    rewrite (Z.mod_eq (2 * N * MAX)), (Z.mod_eq (MAX * MAX)) by lia.
    replace (2 * N * MAX - SIZE_MOD * (2 * N * MAX / SIZE_MOD)
             - (MAX * MAX - SIZE_MOD * (MAX * MAX / SIZE_MOD)) - MAX)
      with (2 * N * MAX - MAX * MAX - MAX
            + (MAX * MAX / SIZE_MOD - 2 * N * MAX / SIZE_MOD) * SIZE_MOD) by ring.
    unfold to_size_t. apply Z_mod_plus_full. }
  rewrite Hwrap.
  assert (Hgap : 0 <= (N - MAX) * (N - MAX - 1)).
  { destruct (Z.eq_dec N MAX) as [->|Hne].
    - rewrite Z.sub_diag. reflexivity.
    - apply Z.mul_nonneg_nonneg; lia. }
  assert (Htop : N * (N - 1) < SIZE_MOD) by nia.
  replace (2 * N * MAX - MAX * MAX - MAX)
    with (2 * Z.of_nat (length (pairs_between N 0 MAX)))
    by (rewrite Hlen; ring).
  rewrite to_size_t_small by nia.
  rewrite Z.mul_comm, Z.div_mul by lia. reflexivity.
Qed.

(** X1: for [N <= 2^32], [num_unique_pairs(N)] is the number of index
    pairs [(i, j)] with [0 <= i < j <= N - 1]. *)
Theorem num_unique_pairs_counts_pairs (N : Z) :
  0 <= N <= 2 ^ 32 ->
  exists l : list index_permutation,
    NoDup l /\
    (forall p, p ∈ l <-> 0 <= first p /\ first p < second p <= N - 1) /\
    num_unique_pairs N = Z.of_nat (length l).
Proof.
  intros HN. exists (pairs_between N 0 N).
  split; [apply pairs_between_NoDup|]. split.
  - intros p. rewrite elem_of_pairs_between. lia.
  - apply num_unique_pairs_length, HN.
Qed.

Lemma num_unique_pairs_counts_pairs_witness :
  0 <= 4 <= 2 ^ 32 /\
  exists l : list index_permutation,
    NoDup l /\
    (forall p, p ∈ l <-> 0 <= first p /\ first p < second p <= 4 - 1) /\
    num_unique_pairs 4 = Z.of_nat (length l).
Proof.
  assert (H : 0 <= 4 <= 2 ^ 32) by lia.
  split; [exact H|]. exact (num_unique_pairs_counts_pairs 4 H).
Defined.

(** X2: for [2 <= N <= 2^32] and every [MIN], [num_unique_pairs_ge_min(N,
    MIN)] is the number of index pairs [(i, j)] with [MIN <= i < j <= N - 1]
    (none when [MIN > N - 2]). *)
Theorem num_unique_pairs_ge_min_counts_pairs (N MIN : Z) :
  2 <= N <= 2 ^ 32 -> 0 <= MIN < SIZE_MOD ->
  exists l : list index_permutation,
    NoDup l /\
    (forall p, p ∈ l <-> MIN <= first p /\ first p < second p <= N - 1) /\
    num_unique_pairs_ge_min N MIN = Z.of_nat (length l) /\
    (N - 2 < MIN -> num_unique_pairs_ge_min N MIN = 0).
Proof.
  intros HN HMIN. exists (pairs_between N MIN N).
  split; [apply pairs_between_NoDup|]. split; [|split].
  - intros p. rewrite elem_of_pairs_between. lia.
  - apply num_unique_pairs_ge_min_length; assumption.
  - intros Hgt. unfold num_unique_pairs_ge_min.
    assert (HM := SIZE_MOD_eq). rewrite (usub_small N 2) by lia.
    destruct (Z.leb_spec MIN (N - 2)); [lia|]. rewrite andb_false_r. reflexivity.
Qed.

Lemma num_unique_pairs_ge_min_counts_pairs_witness :
  (2 <= 4 <= 2 ^ 32 /\ 0 <= 1 < SIZE_MOD) /\
  exists l : list index_permutation,
    NoDup l /\
    (forall p, p ∈ l <-> 1 <= first p /\ first p < second p <= 4 - 1) /\
    num_unique_pairs_ge_min 4 1 = Z.of_nat (length l) /\
    (4 - 2 < 1 -> num_unique_pairs_ge_min 4 1 = 0).
Proof.
  assert (H1 : 2 <= 4 <= 2 ^ 32) by lia.
  assert (H2 : 0 <= 1 < SIZE_MOD) by (unfold SIZE_MOD; lia).
  split; [exact (conj H1 H2)|].
  exact (num_unique_pairs_ge_min_counts_pairs 4 1 H1 H2).
Defined.

(** X3: for [MAX <= N <= 2^32], [num_unique_pairs_lt_max(N, MAX)] is the
    number of index pairs [(i, j)] with [i < MAX] and [i < j <= N - 1]. *)
Theorem num_unique_pairs_lt_max_counts_pairs (N MAX : Z) :
  0 <= MAX <= N -> 1 <= N <= 2 ^ 32 ->
  exists l : list index_permutation,
    NoDup l /\
    (forall p, p ∈ l <-> 0 <= first p < MAX /\ first p < second p <= N - 1) /\
    num_unique_pairs_lt_max N MAX = Z.of_nat (length l).
Proof.
  intros HMAX HN. exists (pairs_between N 0 MAX).
  split; [apply pairs_between_NoDup|]. split.
  - intros p. rewrite elem_of_pairs_between. lia.
  - apply num_unique_pairs_lt_max_length; assumption.
Qed.

Lemma num_unique_pairs_lt_max_counts_pairs_witness :
  (0 <= 2 <= 4 /\ 1 <= 4 <= 2 ^ 32) /\
  exists l : list index_permutation,
    NoDup l /\
    (forall p, p ∈ l <-> 0 <= first p < 2 /\ first p < second p <= 4 - 1) /\
    num_unique_pairs_lt_max 4 2 = Z.of_nat (length l).
Proof.
  assert (H1 : 0 <= 2 <= 4) by lia.
  assert (H2 : 1 <= 4 <= 2 ^ 32) by lia.
  split; [exact (conj H1 H2)|].
  exact (num_unique_pairs_lt_max_counts_pairs 4 2 H1 H2).
Defined.

(** X4: for [MAX <= N] and [2 <= N <= 2^32], the pairs with a lower index
    below [MAX] and those with a lower index from [MAX] on are all the
    pairs: [num_unique_pairs_lt_max(N, MAX) + num_unique_pairs_ge_min(N,
    MAX) = num_unique_pairs(N)]. *)
Theorem num_unique_pairs_split (N MAX : Z) :
  0 <= MAX <= N -> 2 <= N <= 2 ^ 32 ->
  num_unique_pairs_lt_max N MAX + num_unique_pairs_ge_min N MAX
  = num_unique_pairs N.
Proof.
  intros HMAX HN. assert (HM := SIZE_MOD_eq).
  rewrite num_unique_pairs_lt_max_length, num_unique_pairs_ge_min_length,
    num_unique_pairs_length by lia.
  rewrite (pairs_between_app N 0 MAX N), length_app by lia. lia.
Qed.

Lemma num_unique_pairs_split_witness :
  (0 <= 2 <= 6 /\ 2 <= 6 <= 2 ^ 32) /\
  num_unique_pairs_lt_max 6 2 + num_unique_pairs_ge_min 6 2 = num_unique_pairs 6.
Proof.
  assert (H1 : 0 <= 2 <= 6) by lia.
  assert (H2 : 2 <= 6 <= 2 ^ 32) by lia.
  split; [exact (conj H1 H2)|]. exact (num_unique_pairs_split 6 2 H1 H2).
Defined.

(** X5: with [MIN = 0] the guarded count is the plain one, for every
    [size_t] [N], wrapped products included:
    [num_unique_pairs_ge_min(N, 0) = num_unique_pairs(N)]. *)
Theorem num_unique_pairs_ge_min_zero (N : Z) :
  0 <= N < SIZE_MOD -> num_unique_pairs_ge_min N 0 = num_unique_pairs N.
Proof.
  intros HN. unfold num_unique_pairs_ge_min, num_unique_pairs.
  rewrite (usub_small N 0) by lia. rewrite Z.sub_0_r.
  pose proof (to_size_t_range (N - 2)) as Hr. fold (usub N 2) in Hr.
  destruct (Z.ltb_spec 0 N); [|reflexivity].
  destruct (Z.leb_spec 0 (usub N 2)); [reflexivity|lia].
Qed.

Lemma num_unique_pairs_ge_min_zero_witness :
  0 <= 2 ^ 33 + 1 < SIZE_MOD /\
  num_unique_pairs_ge_min (2 ^ 33 + 1) 0 = num_unique_pairs (2 ^ 33 + 1).
Proof.
  assert (H : 0 <= 2 ^ 33 + 1 < SIZE_MOD) by (unfold SIZE_MOD; lia).
  split; [exact H|]. exact (num_unique_pairs_ge_min_zero _ H).
Defined.

(** ** The counters of lists of swaps *)

Lemma well_formed_cons_inv N p s :
  well_formed N (p :: s) ->
  pair_ok N p /\ well_formed N s /\ Forall (fun a => first p + 1 <= first a) s.
Proof.
  intros [Hok Hord]. inversion Hok as [|? ? Hp Hs]; subst.
  split; [exact Hp|]. split; [split; [exact Hs|]|].
  - intros i j a b Hij Ha Hb. apply (Hord (S i) (S j) a b); [lia|exact Ha|exact Hb].
  - apply Forall_forall. intros a Ha. apply list_elem_of_In in Ha.
    apply list_elem_of_lookup in Ha as [k Hk].
    apply (Hord 0%nat (S k) p a); [lia|reflexivity|exact Hk].
Qed.

Lemma well_formed_increasing_from N s :
  forall lo, well_formed N s -> Forall (fun a => lo <= first a) s ->
    increasing_from N lo s.
Proof.
  induction s as [|p s IH]; intros lo Hwf Hlo; [exact Logic.I|].
  apply well_formed_cons_inv in Hwf as (Hp & Hs & Hnext).
  inversion Hlo as [|? ? Hlop _]; subst.
  simpl. split; [exact Hlop|]. split; [exact Hp|]. apply IH; assumption.
Qed.

(** The lists of [well_formed] are those with lower indices increasing
    from 0. *)
Lemma well_formed_iff N s : well_formed N s <-> increasing_from N 0 s.
Proof.
  split; [|apply increasing_from_well_formed].
  intros Hwf. apply well_formed_increasing_from; [exact Hwf|].
  destruct Hwf as [Hok _]. eapply Forall_impl; [|exact Hok].
  intros a (H & _). exact H.
Qed.

(** X6: for [N >= 2], given enough fuel, [num_unique_permutations_ge_min(N,
    L, MIN)] is, modulo [2^64], the number of lists of [L] index pairs on
    [N] elements whose lower indices increase strictly and are all above
    [MIN] (they start at [MIN + 1] at least). *)
Theorem num_unique_permutations_ge_min_counts (fuel : nat) (N L MIN : Z) :
  2 <= N < SIZE_MOD -> 0 <= L < SIZE_MOD -> 0 <= MIN < SIZE_MOD ->
  (Z.to_nat L + Z.to_nat N <= fuel)%nat ->
  exists l : list (list index_permutation),
    NoDup l /\
    (forall s, s ∈ l <-> length s = Z.to_nat L /\ increasing_from N (MIN + 1) s) /\
    num_unique_permutations_ge_min fuel N L MIN
    = Returns (to_size_t (Z.of_nat (length l))).
Proof.
  intros HN HL HMIN Hfuel. exists (all_sequences (Z.to_nat L) N (MIN + 1)).
  split; [apply all_sequences_NoDup|]. split.
  - intros s. apply elem_of_all_sequences. lia.
  - rewrite length_all_sequences.
    rewrite <- (Z2Nat.id L) at 1 by lia.
    apply num_unique_permutations_ge_min_count; try assumption; lia.
Qed.

Lemma num_unique_permutations_ge_min_counts_witness :
  (2 <= 5 < SIZE_MOD /\ 0 <= 2 < SIZE_MOD /\ 0 <= 0 < SIZE_MOD /\
   (Z.to_nat 2 + Z.to_nat 5 <= 7)%nat) /\
  exists l : list (list index_permutation),
    NoDup l /\
    (forall s, s ∈ l <-> length s = Z.to_nat 2 /\ increasing_from 5 (0 + 1) s) /\
    num_unique_permutations_ge_min 7 5 2 0
    = Returns (to_size_t (Z.of_nat (length l))).
Proof.
  assert (H1 : 2 <= 5 < SIZE_MOD) by (unfold SIZE_MOD; lia).
  assert (H2 : 0 <= 2 < SIZE_MOD) by (unfold SIZE_MOD; lia).
  assert (H3 : 0 <= 0 < SIZE_MOD) by (unfold SIZE_MOD; lia).
  assert (H4 : (Z.to_nat 2 + Z.to_nat 5 <= 7)%nat) by (vm_compute; lia).
  split; [exact (conj H1 (conj H2 (conj H3 H4)))|].
  exact (num_unique_permutations_ge_min_counts 7 5 2 0 H1 H2 H3 H4).
Defined.

(** X7: for [N >= 2] and [1 <= L <= N - 1], given enough fuel,
    [num_unique_permutations(N, L)] is, modulo [2^64], the number of lists
    of [L] index pairs with [first < second <= N - 1] and strictly
    increasing lower indices. *)
Theorem num_unique_permutations_counts (fuel : nat) (N L : Z) :
  2 <= N < SIZE_MOD -> 1 <= L <= N - 1 ->
  (Z.to_nat L + Z.to_nat N <= fuel)%nat ->
  exists l : list (list index_permutation),
    NoDup l /\
    (forall s, s ∈ l <-> length s = Z.to_nat L /\ well_formed N s) /\
    num_unique_permutations fuel N L = Returns (to_size_t (Z.of_nat (length l))).
Proof.
  intros HN HL Hfuel. exists (all_sequences (Z.to_nat L) N 0).
  split; [apply all_sequences_NoDup|]. split.
  - intros s. rewrite well_formed_iff. apply elem_of_all_sequences. lia.
  - rewrite length_all_sequences.
    apply num_unique_permutations_count; assumption.
Qed.

Lemma num_unique_permutations_counts_witness :
  (2 <= 4 < SIZE_MOD /\ 1 <= 2 <= 4 - 1 /\ (Z.to_nat 2 + Z.to_nat 4 <= 6)%nat) /\
  exists l : list (list index_permutation),
    NoDup l /\
    (forall s, s ∈ l <-> length s = Z.to_nat 2 /\ well_formed 4 s) /\
    num_unique_permutations 6 4 2 = Returns (to_size_t (Z.of_nat (length l))).
Proof.
  assert (H1 : 2 <= 4 < SIZE_MOD) by (unfold SIZE_MOD; lia).
  assert (H2 : 1 <= 2 <= 4 - 1) by lia.
  assert (H3 : (Z.to_nat 2 + Z.to_nat 4 <= 6)%nat) by (vm_compute; lia).
  split; [exact (conj H1 (conj H2 H3))|].
  exact (num_unique_permutations_counts 6 4 2 H1 H2 H3).
Defined.

Lemma count_sequences_one N lo :
  0 <= lo <= N ->
  count_sequences 1 N lo = Z.of_nat (length (pairs_between N lo N)).
Proof.
  intros Hlo.
  pose proof (length_pairs_between N lo N ltac:(lia)) as Hlen.
  assert (H2 : 2 * count_sequences 1 N lo = (N - lo) * (N - lo - 1)).
  { rewrite count_sequences_S.
    rewrite (sumZ_ext _ (fun i => N - (i + 1)))
      by (intros i _; cbn [count_sequences]; lia).
    destruct (Z.eq_dec lo N) as [->|Hne].
    - rewrite seqZ_nil by lia. rewrite Z.sub_diag. reflexivity.
    - rewrite <- (seqZ_to_nat lo (N - 1 - lo)), sumZ_descending.
      rewrite Z2Nat.id by lia. ring. }
  assert (E : (N - lo) * (2 * N - 1 - lo - N) = (N - lo) * (N - lo - 1)) by ring.
  lia.
Qed.

(** X8: for [2 <= N <= 2^32], given enough fuel, the count at level 1 is
    the count of pairs: [num_unique_permutations(N, 1) =
    num_unique_pairs(N)]. *)
Theorem num_unique_permutations_level_one (fuel : nat) (N : Z) :
  2 <= N <= 2 ^ 32 -> (1 + Z.to_nat N <= fuel)%nat ->
  num_unique_permutations fuel N 1 = Returns (num_unique_pairs N).
Proof.
  intros HN Hfuel. assert (HM := SIZE_MOD_eq).
  rewrite num_unique_permutations_count by lia.
  change (Z.to_nat 1) with 1%nat.
  rewrite count_sequences_one, <- num_unique_pairs_length by lia.
  rewrite to_size_t_small; [reflexivity|].
  pose proof (num_unique_pairs_length N ltac:(lia)) as E.
  pose proof (length_pairs_between N 0 N ltac:(lia)). nia.
Qed.

Lemma num_unique_permutations_level_one_witness :
  (2 <= 6 <= 2 ^ 32 /\ (1 + Z.to_nat 6 <= 7)%nat) /\
  num_unique_permutations 7 6 1 = Returns (num_unique_pairs 6).
Proof.
  assert (H1 : 2 <= 6 <= 2 ^ 32) by lia.
  assert (H2 : (1 + Z.to_nat 6 <= 7)%nat) by (vm_compute; lia).
  split; [exact (conj H1 H2)|].
  exact (num_unique_permutations_level_one 7 6 H1 H2).
Defined.

(** X9: for [2 <= N <= 2^32], given enough fuel, the guarded count at
    level 1 with minimum [MIN] is the guarded count of pairs with minimum
    [MIN + 1]: [num_unique_permutations_ge_min(N, 1, MIN) =
    num_unique_pairs_ge_min(N, MIN + 1)]. *)
Theorem num_unique_permutations_ge_min_level_one (fuel : nat) (N MIN : Z) :
  2 <= N <= 2 ^ 32 -> 0 <= MIN < SIZE_MOD - 1 ->
  (1 + Z.to_nat N <= fuel)%nat ->
  num_unique_permutations_ge_min fuel N 1 MIN
  = Returns (num_unique_pairs_ge_min N (MIN + 1)).
Proof.
  intros HN HMIN Hfuel. assert (HM := SIZE_MOD_eq).
  change 1 with (Z.of_nat 1) at 1.
  rewrite (num_unique_permutations_ge_min_count 1 fuel N MIN) by lia.
  rewrite num_unique_pairs_ge_min_length by lia.
  destruct (Z.le_gt_cases (MIN + 1) N) as [Hle|Hgt].
  - rewrite count_sequences_one by lia.
    rewrite to_size_t_small; [reflexivity|].
    pose proof (length_pairs_between N (MIN + 1) N ltac:(lia)). nia.
  - rewrite count_sequences_S. rewrite seqZ_nil by lia.
    assert (E : pairs_between N (MIN + 1) N = []).
    { unfold pairs_between. rewrite seqZ_nil by lia. reflexivity. }
    rewrite E. reflexivity.
Qed.

Lemma num_unique_permutations_ge_min_level_one_witness :
  (2 <= 6 <= 2 ^ 32 /\ 0 <= 2 < SIZE_MOD - 1 /\ (1 + Z.to_nat 6 <= 7)%nat) /\
  num_unique_permutations_ge_min 7 6 1 2
  = Returns (num_unique_pairs_ge_min 6 (2 + 1)).
Proof.
  assert (H1 : 2 <= 6 <= 2 ^ 32) by lia.
  assert (H2 : 0 <= 2 < SIZE_MOD - 1) by (unfold SIZE_MOD; lia).
  assert (H3 : (1 + Z.to_nat 6 <= 7)%nat) by (vm_compute; lia).
  split; [exact (conj H1 (conj H2 H3))|].
  exact (num_unique_permutations_ge_min_level_one 7 6 2 H1 H2 H3).
Defined.

(** X10: for [N >= 2], given enough fuel, the count at the highest level
    [L = N - 1] is [(N - 1)!] modulo [2^64]. *)
Theorem num_unique_permutations_top_level (fuel : nat) (N : Z) :
  2 <= N < SIZE_MOD -> (2 * Z.to_nat N <= fuel)%nat ->
  num_unique_permutations fuel N (N - 1)
  = Returns (to_size_t (factorialZ (Z.to_nat (N - 1)))).
Proof.
  intros HN Hfuel.
  rewrite num_unique_permutations_count by lia.
  pose proof (count_sequences_full (Z.to_nat (N - 1)) 0) as E.
  replace (0 + Z.of_nat (Z.to_nat (N - 1)) + 1) with N in E by lia.
  rewrite E. reflexivity.
Qed.

Lemma num_unique_permutations_top_level_witness :
  (2 <= 22 < SIZE_MOD /\ (2 * Z.to_nat 22 <= 44)%nat) /\
  num_unique_permutations 44 22 (22 - 1)
  = Returns (to_size_t (factorialZ (Z.to_nat (22 - 1)))).
Proof.
  assert (H1 : 2 <= 22 < SIZE_MOD) by (unfold SIZE_MOD; lia).
  assert (H2 : (2 * Z.to_nat 22 <= 44)%nat) by (vm_compute; lia).
  split; [exact (conj H1 H2)|].
  exact (num_unique_permutations_top_level 44 22 H1 H2).
Defined.

(** X11: with [N = 1] and a level [L >= 1],
    [num_unique_permutations_ge_min] returns nothing, whatever the fuel:
    the bound [N - 2] of its loop is the largest [size_t], so that neither
    the guard [MIN > N - 2] nor the test [I <= N - 2] ever stops it. *)
Theorem num_unique_permutations_ge_min_one_never_returns
    (fuel : nat) (L MIN v : Z) :
  1 <= L < SIZE_MOD -> 0 <= MIN < SIZE_MOD ->
  num_unique_permutations_ge_min fuel 1 L MIN <> Returns v.
Proof.
  intros HL HMIN.
  rewrite num_unique_permutations_ge_min_one_diverges by assumption.
  discriminate.
Qed.

Lemma num_unique_permutations_ge_min_one_never_returns_witness :
  (1 <= 1 < SIZE_MOD /\ 0 <= 0 < SIZE_MOD) /\
  num_unique_permutations_ge_min 100 1 1 0 <> Returns 0.
Proof.
  assert (H1 : 1 <= 1 < SIZE_MOD) by (unfold SIZE_MOD; lia).
  assert (H2 : 0 <= 0 < SIZE_MOD) by (unfold SIZE_MOD; lia).
  split; [exact (conj H1 H2)|].
  exact (num_unique_permutations_ge_min_one_never_returns 100 1 0 0 H1 H2).
Defined.

Lemma sumZ_fmap_ext {A : Type} (h g : A -> Z) (l : list A) :
  (forall x, x ∈ l -> h x = g x) -> sumZ (h <$> l) = sumZ (g <$> l).
Proof.
  induction l as [|x l IH]; intros H; [reflexivity|].
  rewrite !fmap_cons, !sumZ_cons, H by apply list_elem_of_here.
  rewrite IH by (intros y Hy; apply H, list_elem_of_further, Hy). reflexivity.
Qed.

Lemma sumZ_fmap_add {A : Type} (h g : A -> Z) (l : list A) :
  sumZ ((fun x => h x + g x) <$> l) = sumZ (h <$> l) + sumZ (g <$> l).
Proof.
  induction l as [|x l IH]; [reflexivity|].
  rewrite !fmap_cons, !sumZ_cons, IH. lia.
Qed.

Lemma sumZ_fmap_scale {A : Type} (c : Z) (h : A -> Z) (l : list A) :
  sumZ ((fun x => c * h x) <$> l) = c * sumZ (h <$> l).
Proof.
  induction l as [|x l IH]; [rewrite !fmap_nil, sumZ_nil; lia|].
  rewrite !fmap_cons, !sumZ_cons, IH. lia.
Qed.

Lemma sumZ_fmap_zero {A : Type} (l : list A) :
  sumZ ((fun _ => 0) <$> l) = 0.
Proof.
  induction l as [|x l IH]; [reflexivity|].
  rewrite fmap_cons, sumZ_cons, IH. reflexivity.
Qed.

(** Two nested sums may be exchanged. *)
Lemma sumZ_fmap_swap {A B : Type} (f : A -> B -> Z) (l1 : list A) (l2 : list B) :
  sumZ ((fun a => sumZ ((fun b => f a b) <$> l2)) <$> l1)
  = sumZ ((fun b => sumZ ((fun a => f a b) <$> l1)) <$> l2).
Proof.
  induction l1 as [|a l1 IH].
  - rewrite fmap_nil, sumZ_nil.
    rewrite (sumZ_fmap_ext _ (fun _ => 0)) by (intros; reflexivity).
    symmetry. apply sumZ_fmap_zero.
  - rewrite fmap_cons, sumZ_cons, IH.
    rewrite <- sumZ_fmap_add. apply sumZ_fmap_ext. intros b _.
    rewrite fmap_cons, sumZ_cons. reflexivity.
Qed.

(** The sum of [m * m!] for [m] from 1 to [n] is [(n + 1)! - 1]. *)
Lemma weighted_factorial_sum_eq N :
  forall (n : nat) (lo : Z),
    Z.of_nat n = N - 1 - lo ->
    sumZ ((fun i => (N - i - 1) * factorialZ (Z.to_nat (N - i - 1)))
            <$> seqZ lo (N - 1 - lo))
    = factorialZ (S n) - 1.
Proof.
  induction n as [|n IH]; intros lo Hn.
  - rewrite seqZ_nil by lia. reflexivity.
  - rewrite seqZ_cons by lia. rewrite fmap_cons, sumZ_cons.
    replace (Z.pred (N - 1 - lo)) with (N - 1 - Z.succ lo) by lia.
    rewrite (IH (Z.succ lo)) by lia.
    replace (Z.to_nat (N - lo - 1)) with (S n) by lia.
    replace (N - lo - 1) with (Z.of_nat (S n)) by lia.
    rewrite (factorialZ_S (S n)). lia.
Qed.

(** Summed over all levels, the lists of swaps with lower indices from
    [lo] on are [(N - lo)!] many. *)
Lemma count_sequences_total N :
  forall (n : nat) (lo : Z) (R : nat),
    Z.of_nat n = N - lo -> (1 <= R)%nat -> (n <= R)%nat ->
    sumZ ((fun r => count_sequences r N lo) <$> seq 0 R) = factorialZ n.
Proof.
  induction n as [n IH] using lt_wf_ind. intros lo R Hn HR1 HRn.
  destruct R as [|R]; [lia|].
  rewrite <- cons_seq, fmap_cons, sumZ_cons. cbn [count_sequences].
  rewrite <- fmap_S_seq, <- list_fmap_compose.
  rewrite (sumZ_fmap_ext _
    (fun r => sumZ ((fun i => (N - i - 1) * count_sequences r N (i + 1))
                      <$> seqZ lo (N - 1 - lo))))
    by (intros r _; reflexivity).
  rewrite (sumZ_fmap_swap
    (fun r i => (N - i - 1) * count_sequences r N (i + 1))).
  destruct n as [|n].
  { rewrite seqZ_nil by lia. reflexivity. }
  rewrite (sumZ_fmap_ext _
    (fun i => (N - i - 1) * factorialZ (Z.to_nat (N - i - 1)))).
  - rewrite (weighted_factorial_sum_eq N n lo) by lia. lia.
  - intros i Hi. apply elem_of_seqZ in Hi.
    rewrite sumZ_fmap_scale. apply (f_equal (Z.mul (N - i - 1))).
    apply (IH (Z.to_nat (N - i - 1))); lia.
Qed.

(** X12: for [1 <= N <= 20], given enough fuel, the counts of the levels
    [L = 0, ..., N - 1] add up to [N!]: with the identity counted at level
    0, every permutation of [N] elements is counted once. *)
Theorem num_unique_permutations_total (fuel : nat) (N : Z) :
  1 <= N <= 20 -> (2 * Z.to_nat N <= fuel)%nat ->
  exists c : Z -> Z,
    (forall L, 0 <= L <= N - 1 ->
       num_unique_permutations fuel N L = Returns (c L)) /\
    sumZ (c <$> seqZ 0 N) = factorialZ (Z.to_nat N).
Proof.
  intros HN Hfuel. assert (HI := INT_MAX_eq).
  exists (fun L => count_sequences (Z.to_nat L) N 0). split.
  - intros L HL. destruct (Z.eq_dec L 0) as [->|HL0].
    + unfold num_unique_permutations. reflexivity.
    + rewrite num_unique_permutations_run; try lia.
      * rewrite to_size_t_small; [reflexivity|].
        pose proof (count_sequences_nonneg (Z.to_nat L) N 0).
        pose proof (count_sequences_fits (Z.to_nat L) N HN). lia.
      * unfold enough_fuel. destruct (Z.ltb_spec N L); lia.
  - unfold seqZ. rewrite <- list_fmap_compose.
    rewrite (sumZ_fmap_ext _ (fun r => count_sequences r N 0)).
    + apply (count_sequences_total N); lia.
    + intros r _. unfold compose. apply (f_equal (fun k => count_sequences k N 0)). lia.
Qed.

Lemma num_unique_permutations_total_witness :
  (1 <= 4 <= 20 /\ (2 * Z.to_nat 4 <= 8)%nat) /\
  exists c : Z -> Z,
    (forall L, 0 <= L <= 4 - 1 ->
       num_unique_permutations 8 4 L = Returns (c L)) /\
    sumZ (c <$> seqZ 0 4) = factorialZ (Z.to_nat 4).
Proof.
  assert (H1 : 1 <= 4 <= 20) by lia.
  assert (H2 : (2 * Z.to_nat 4 <= 8)%nat) by (vm_compute; lia).
  split; [exact (conj H1 H2)|].
  exact (num_unique_permutations_total 8 4 H1 H2).
Defined.

(** ** The executor *)

Section ExecutorMore.
Context {A : Type}.
Implicit Types (l IN : list A) (s t : list index_permutation).

Lemma swap_at_Permutation l (i j : nat) : swap_at l i j ≡ₚ l.
Proof.
  unfold swap_at.
  destruct (l !! i) as [x|] eqn:Hx; [|reflexivity].
  destruct (l !! j) as [y|] eqn:Hy; [|reflexivity].
  apply Permutation_insert_swap; assumption.
Qed.

Lemma apply_swaps_Permutation s : forall l, apply_swaps s l ≡ₚ l.
Proof.
  induction s as [|p s IH]; intros l; [reflexivity|].
  rewrite apply_swaps_cons, IH. apply swap_at_Permutation.
Qed.

(** A swap is its own inverse. *)
Lemma swap_at_involutive l (i j : nat) :
  (i < length l)%nat -> (j < length l)%nat ->
  swap_at (swap_at l i j) i j = l.
Proof.
  intros Hi Hj. apply list_eq. intros a.
  rewrite lookup_swap_at by (rewrite length_swap_at; assumption).
  rewrite lookup_swap_at by assumption.
  repeat case_decide; subst; try reflexivity; congruence.
Qed.

Lemma swap_at_same l (i : nat) : swap_at l i i = l.
Proof.
  unfold swap_at. destruct (l !! i) as [x|] eqn:Hx; [|reflexivity].
  rewrite list_insert_insert_eq. apply list_insert_id. exact Hx.
Qed.

Lemma apply_swaps_app s t l :
  apply_swaps (s ++ t) l = apply_swaps t (apply_swaps s l).
Proof. unfold apply_swaps. apply foldl_app. Qed.

Lemma Forall_pair_in_bounds_length l l' s :
  length l = length l' ->
  Forall (pair_in_bounds l) s -> Forall (pair_in_bounds l') s.
Proof.
  intros Hlen Hs. eapply Forall_impl; [|exact Hs].
  intros p. apply pair_in_bounds_length. exact Hlen.
Qed.

Lemma apply_swaps_reverse s : forall l,
  Forall (pair_in_bounds l) s -> apply_swaps (reverse s) (apply_swaps s l) = l.
Proof.
  induction s as [|p s IH]; intros l Hs; [reflexivity|].
  inversion Hs as [|? ? [Hp1 Hp2] Hs']; subst.
  rewrite reverse_cons, apply_swaps_app, (apply_swaps_cons p s l).
  rewrite IH.
  - cbn [apply_swaps foldl]. apply swap_at_involutive; lia.
  - eapply Forall_pair_in_bounds_length; [|exact Hs'].
    rewrite length_swap_at. reflexivity.
Qed.

(** The result of the loop does not depend on the frame's [IN]. *)
Lemma execute_loop_result s : forall (fr1 fr2 : exec_frame A),
  ex_OUT fr1 = ex_OUT fr2 ->
  (fr <- execute_loop s fr1 ;; Returns (ex_OUT fr))
  = (fr <- execute_loop s fr2 ;; Returns (ex_OUT fr)).
Proof.
  induction s as [|p s IH]; intros fr1 fr2 E.
  - cbn [execute_loop obind]. rewrite E. reflexivity.
  - cbn [execute_loop]. rewrite E.
    destruct (iter_swap (ex_OUT fr2) (first p) (second p)) as [out| | |];
      cbn [obind]; try reflexivity.
    apply IH. reflexivity.
Qed.

Lemma execute_loop_app s t : forall (fr : exec_frame A),
  execute_loop (s ++ t) fr = (fr' <- execute_loop s fr ;; execute_loop t fr').
Proof.
  induction s as [|p s IH]; intros fr; [reflexivity|].
  cbn [app execute_loop].
  destruct (iter_swap (ex_OUT fr) (first p) (second p)) as [out| | |];
    cbn [obind]; try reflexivity.
  apply IH.
Qed.

(** X13: when every pair is within the bounds of [IN],
    [execute_permutations] returns a rearrangement of [IN]: the same
    elements, each as often as in [IN]. *)
Theorem execute_permutations_Permutation s IN :
  Forall (pair_in_bounds IN) s ->
  exists OUT, execute_permutations s IN = Returns OUT /\ OUT ≡ₚ IN.
Proof.
  intros Hs. exists (apply_swaps s IN). split.
  - apply execute_permutations_in_bounds. exact Hs.
  - apply apply_swaps_Permutation.
Qed.

(** X14: executing the concatenation of two lists is executing the first
    and then the second on its result, whatever the pairs are; an
    undefined first part makes the whole undefined. *)
Theorem execute_permutations_app s t IN :
  execute_permutations (s ++ t) IN
  = (OUT <- execute_permutations s IN ;; execute_permutations t OUT).
Proof.
  unfold execute_permutations, execute_permutations_frame.
  rewrite execute_loop_app.
  destruct (execute_loop s {| ex_IN := IN; ex_OUT := IN |}) as [fr| | |];
    cbn [obind]; try reflexivity.
  apply execute_loop_result. reflexivity.
Qed.

(** X15: when every pair is within the bounds of [IN], executing the list
    and then the reversed list on the result gives [IN] back. *)
Theorem execute_permutations_reverse s IN :
  Forall (pair_in_bounds IN) s ->
  exists OUT,
    execute_permutations s IN = Returns OUT /\
    execute_permutations (reverse s) OUT = Returns IN.
Proof.
  intros Hs. exists (apply_swaps s IN). split.
  - apply execute_permutations_in_bounds. exact Hs.
  - rewrite execute_permutations_in_bounds.
    + rewrite apply_swaps_reverse by exact Hs. reflexivity.
    + apply Forall_reverse.
      eapply Forall_pair_in_bounds_length; [|exact Hs].
      rewrite length_apply_swaps. reflexivity.
Qed.

(** X16: a list of pairs with equal components within the bounds of [IN],
    such as the pair [{0,0}] on a collection that is not empty, returns
    [IN] unchanged. *)
Theorem execute_permutations_self_pairs s IN :
  Forall (pair_in_bounds IN) s ->
  Forall (fun p => first p = second p) s ->
  execute_permutations s IN = Returns IN.
Proof.
  intros Hs Hself. rewrite execute_permutations_in_bounds by exact Hs.
  apply (f_equal Returns). clear Hs.
  induction Hself as [|p s Hp _ IH]; [reflexivity|].
  rewrite apply_swaps_cons, Hp, swap_at_same. exact IH.
Qed.
End ExecutorMore.

Lemma execute_permutations_Permutation_witness :
  Forall (pair_in_bounds [10; 20; 30])
    [{| first := 0; second := 2 |}; {| first := 1; second := 2 |}] /\
  exists OUT,
    execute_permutations
      [{| first := 0; second := 2 |}; {| first := 1; second := 2 |}]
      [10; 20; 30] = Returns OUT /\
    OUT ≡ₚ [10; 20; 30].
Proof.
  assert (H : Forall (pair_in_bounds [10; 20; 30])
                [{| first := 0; second := 2 |}; {| first := 1; second := 2 |}]).
  { repeat constructor; simpl; lia. }
  split; [exact H|].
  exact (execute_permutations_Permutation _ _ H).
Defined.

Lemma execute_permutations_reverse_witness :
  Forall (pair_in_bounds [10; 20; 30])
    [{| first := 0; second := 2 |}; {| first := 1; second := 2 |}] /\
  exists OUT,
    execute_permutations
      [{| first := 0; second := 2 |}; {| first := 1; second := 2 |}]
      [10; 20; 30] = Returns OUT /\
    execute_permutations
      (reverse [{| first := 0; second := 2 |}; {| first := 1; second := 2 |}])
      OUT = Returns [10; 20; 30].
Proof.
  assert (H : Forall (pair_in_bounds [10; 20; 30])
                [{| first := 0; second := 2 |}; {| first := 1; second := 2 |}]).
  { repeat constructor; simpl; lia. }
  split; [exact H|].
  exact (execute_permutations_reverse _ _ H).
Defined.

Lemma execute_permutations_self_pairs_witness :
  (Forall (pair_in_bounds [10; 20; 30])
     [{| first := 0; second := 0 |}; {| first := 2; second := 2 |}] /\
   Forall (fun p => first p = second p)
     [{| first := 0; second := 0 |}; {| first := 2; second := 2 |}]) /\
  execute_permutations
    [{| first := 0; second := 0 |}; {| first := 2; second := 2 |}]
    [10; 20; 30] = Returns [10; 20; 30].
Proof.
  assert (H1 : Forall (pair_in_bounds [10; 20; 30])
                 [{| first := 0; second := 0 |}; {| first := 2; second := 2 |}]).
  { repeat constructor; simpl; lia. }
  assert (H2 : Forall (fun p => first p = second p)
                 [{| first := 0; second := 0 |}; {| first := 2; second := 2 |}]).
  { repeat constructor. }
  split; [exact (conj H1 H2)|].
  exact (execute_permutations_self_pairs _ _ H1 H2).
Defined.

(** ** The enumeration *)

Section UniquenessMore.
Context {A : Type}.
Implicit Types (l res : list A) (s t : list index_permutation).

(** A list of swaps that is not empty moves the element at its first
    lower index. *)
Lemma apply_swaps_moves N lo p s l :
  NoDup l -> Z.of_nat (length l) = N -> 0 <= lo ->
  increasing_from N lo (p :: s) -> apply_swaps (p :: s) l <> l.
Proof.
  intros Hl HN Hlo Hs E.
  pose proof (apply_swaps_head N lo p s l HN Hlo Hs) as Hp.
  destruct Hs as (Hp1 & (Hp2 & Hp3 & Hp4) & _).
  rewrite E in Hp.
  destruct (lookup_lt_is_Some_2 l (Z.to_nat (first p))) as [x Hx]; [lia|].
  rewrite Hx in Hp. symmetry in Hp.
  pose proof (proj1 (NoDup_alt l) Hl _ _ _ Hx Hp). lia.
Qed.

(** Two lists of swaps with the same effect have the same length. *)
Lemma apply_swaps_same_length N l :
  NoDup l -> Z.of_nat (length l) = N ->
  forall s t lo,
    0 <= lo ->
    increasing_from N lo s -> increasing_from N lo t ->
    apply_swaps s l = apply_swaps t l -> length s = length t.
Proof.
  intros Hl HN s. revert l Hl HN.
  induction s as [|p s IH]; intros l Hl HN t lo Hlo Hs Ht E.
  - destruct t as [|q t]; [reflexivity|]. exfalso.
    apply (apply_swaps_moves N lo q t l Hl HN Hlo Ht). symmetry. exact E.
  - destruct t as [|q t].
    { exfalso. apply (apply_swaps_moves N lo p s l Hl HN Hlo Hs). exact E. }
    pose proof Hs as (Hp1 & (Hp2 & Hp3 & Hp4) & Hs').
    pose proof Ht as (Hq1 & (Hq2 & Hq3 & Hq4) & Ht').
    pose proof (apply_swaps_head N lo p s l HN Hlo Hs) as Hp.
    pose proof (apply_swaps_head N lo q t l HN Hlo Ht) as Hq.
    assert (Hfirst : first p = first q).
    { destruct (Z.lt_trichotomy (first p) (first q)) as [Hlt|[Heq|Hgt]];
        [exfalso|exact Heq|exfalso].
      - rewrite E in Hp.
        rewrite (apply_swaps_below N (first q) (q :: t)) in Hp; try lia.
        + destruct (lookup_lt_is_Some_2 l (Z.to_nat (first p))) as [x Hx]; [lia|].
          rewrite Hx in Hp. symmetry in Hp.
          pose proof (proj1 (NoDup_alt l) Hl _ _ _ Hx Hp). lia.
        + eapply increasing_from_head. exact Ht.
      - rewrite <- E in Hq.
        rewrite (apply_swaps_below N (first p) (p :: s)) in Hq; try lia.
        + destruct (lookup_lt_is_Some_2 l (Z.to_nat (first q))) as [x Hx]; [lia|].
          rewrite Hx in Hq. symmetry in Hq.
          pose proof (proj1 (NoDup_alt l) Hl _ _ _ Hx Hq). lia.
        + eapply increasing_from_head. exact Hs. }
    assert (Hsecond : second p = second q).
    { rewrite E, Hfirst, Hq in Hp.
      destruct (lookup_lt_is_Some_2 l (Z.to_nat (second p))) as [x Hx]; [lia|].
      rewrite Hx in Hp.
      pose proof (proj1 (NoDup_alt l) Hl _ _ _ Hx Hp). lia. }
    assert (Epq : p = q) by (destruct p, q; simpl in *; congruence).
    subst q. simpl. apply (f_equal S).
    rewrite !apply_swaps_cons in E.
    eapply (IH _ (NoDup_swap_at l _ _ Hl)); [| |exact Hs'|exact Ht'|exact E].
    + rewrite length_swap_at. exact HN.
    + lia.
Qed.

(** So the lists of swaps with increasing lower indices stand for distinct
    rearrangements, whatever their lengths. *)
Lemma apply_swaps_inj_levels N l s t :
  NoDup l -> Z.of_nat (length l) = N ->
  increasing_from N 0 s -> increasing_from N 0 t ->
  apply_swaps s l = apply_swaps t l -> s = t.
Proof.
  intros Hl HN Hs Ht E.
  apply (apply_swaps_inj N l Hl HN s t 0); try assumption; [lia|].
  apply (apply_swaps_same_length N l Hl HN s t 0); try assumption. lia.
Qed.

Lemma increasing_from_weaken N lo lo' s :
  lo' <= lo -> increasing_from N lo s -> increasing_from N lo' s.
Proof.
  destruct s as [|p s]; [intros; exact Logic.I|].
  intros Hle (H1 & H2 & H3). split; [lia|]. split; assumption.
Qed.

(** Every rearrangement of [l] that keeps the positions below [lo] is the
    effect of a list of swaps with increasing lower indices from [lo] on:
    position by position, the element wanted there is fetched from
    above. *)
Lemma apply_swaps_complete N :
  forall (n : nat) (lo : Z) l res,
    Z.of_nat n = N - lo -> 0 <= lo ->
    NoDup l -> Z.of_nat (length l) = N -> l ≡ₚ res ->
    (forall k : nat, Z.of_nat k < lo -> l !! k = res !! k) ->
    exists s, increasing_from N lo s /\ apply_swaps s l = res.
Proof.
  induction n as [|n IH]; intros lo l res Hn Hlo Hl HN Hperm Hagree.
  - exists []. split; [exact Logic.I|]. cbn [apply_swaps foldl].
    apply list_eq. intros k.
    destruct (decide (k < length l)%nat) as [Hk|Hk]; [apply Hagree; lia|].
    rewrite !lookup_ge_None_2; [reflexivity| |lia].
    rewrite <- (Permutation_length Hperm). lia.
  - pose proof (Permutation_length Hperm) as Hlen.
    assert (Hres : NoDup res) by (rewrite <- Hperm; exact Hl).
    destruct (lookup_lt_is_Some_2 res (Z.to_nat lo)) as [x Hx]; [lia|].
    assert (Hin : x ∈ l).
    { rewrite Hperm. eapply list_elem_of_lookup_2. exact Hx. }
    apply list_elem_of_lookup in Hin as [j Hj].
    pose proof (lookup_lt_Some _ _ _ Hj) as Hjlt.
    assert (Hjlo : (Z.to_nat lo <= j)%nat).
    { destruct (decide (Z.to_nat lo <= j)%nat) as [H|H]; [exact H|exfalso].
      rewrite Hagree in Hj by lia.
      pose proof (proj1 (NoDup_alt res) Hres _ _ _ Hj Hx). lia. }
    destruct (decide (j = Z.to_nat lo)) as [->|Hne].
    + destruct (IH (lo + 1) l res) as (s & Hs & Es); try assumption; try lia.
      * intros k Hk. destruct (decide (k = Z.to_nat lo)) as [->|Hk'].
        -- rewrite Hj, Hx. reflexivity.
        -- apply Hagree. lia.
      * exists s. split; [|exact Es].
        apply (increasing_from_weaken N (lo + 1)); [lia|exact Hs].
    + destruct (IH (lo + 1) (swap_at l (Z.to_nat lo) j) res)
        as (s & Hs & Es); try lia.
      * apply NoDup_swap_at. exact Hl.
      * rewrite length_swap_at. exact HN.
      * rewrite swap_at_Permutation. exact Hperm.
      * intros k Hk. destruct (decide (k = Z.to_nat lo)) as [->|Hk'].
        -- rewrite lookup_swap_at by lia.
           rewrite decide_True by reflexivity. rewrite Hj, Hx. reflexivity.
        -- rewrite lookup_swap_at_other by lia. apply Hagree. lia.
      * exists ({| first := lo; second := Z.of_nat j |} :: s). split.
        -- split; [simpl; lia|]. split; [unfold pair_ok; simpl; lia|].
           exact Hs.
        -- rewrite apply_swaps_cons. cbn [first second].
           rewrite Nat2Z.id. exact Es.
Qed.
End UniquenessMore.

Lemma StronglySorted_bind {B C : Type} (Q : B -> B -> Prop) (R : C -> C -> Prop)
    (f : B -> list C) (l : list B) :
  Sorted.StronglySorted Q l ->
  (forall x, x ∈ l -> Sorted.StronglySorted R (f x)) ->
  (forall x y a b, Q x y -> a ∈ f x -> b ∈ f y -> R a b) ->
  Sorted.StronglySorted R (l ≫= f).
Proof.
  intros Hl Hf Hcross. induction Hl as [|x l Hl IH Hx].
  - constructor.
  - rewrite bind_cons.
    assert (IH' : Sorted.StronglySorted R (l ≫= f)).
    { apply IH. intros y Hy. apply Hf. apply list_elem_of_further. exact Hy. }
    clear IH.
    specialize (Hf x (list_elem_of_here _ _)).
    assert (Hall : forall a, a ∈ f x -> Forall (R a) (l ≫= f)).
    { intros a Ha. apply Forall_forall. intros b Hb. apply list_elem_of_In in Hb.
      apply list_elem_of_bind in Hb as (y & Hb & Hy).
      apply (Hcross x y); try assumption.
      rewrite Forall_forall in Hx. apply Hx. apply list_elem_of_In. exact Hy. }
    induction Hf as [|a fx Hfx IHf Ha]; [exact IH'|].
    cbn [app]. constructor.
    + apply IHf. intros b Hb. apply Hall. apply list_elem_of_further. exact Hb.
    + apply Forall_app. split; [exact Ha|].
      apply Hall. apply list_elem_of_here.
Qed.

Lemma StronglySorted_fmap_2 {B C : Type} (R : B -> B -> Prop)
    (R2 : C -> C -> Prop) (g : B -> C) (l : list B) :
  (forall x y, R x y -> R2 (g x) (g y)) ->
  Sorted.StronglySorted R l -> Sorted.StronglySorted R2 (g <$> l).
Proof.
  intros Hg Hl. induction Hl as [|x l Hl IH Hx]; [constructor|].
  rewrite fmap_cons. constructor; [exact IH|].
  apply Forall_fmap. eapply Forall_impl; [|exact Hx].
  intros y Hy. apply Hg. exact Hy.
Qed.

Lemma StronglySorted_seqZ (n : nat) : forall a,
  Sorted.StronglySorted Z.lt (seqZ a (Z.of_nat n)).
Proof.
  induction n as [|n IH]; intros a; [constructor|].
  rewrite seqZ_cons by lia.
  replace (Z.pred (Z.of_nat (S n))) with (Z.of_nat n) by lia.
  constructor; [apply IH|].
  apply Forall_forall. intros y Hy. apply list_elem_of_In, elem_of_seqZ in Hy. lia.
Qed.

Lemma StronglySorted_seqZ_any a n : Sorted.StronglySorted Z.lt (seqZ a n).
Proof. rewrite <- seqZ_to_nat. apply StronglySorted_seqZ. Qed.

(** [all_sequences] lists its members in the order of the traversal. *)
Lemma all_sequences_sorted r N : forall lo,
  Sorted.StronglySorted list_before (all_sequences r N lo).
Proof.
  induction r as [|r IH]; intros lo.
  - cbn [all_sequences]. repeat constructor.
  - rewrite all_sequences_S.
    apply (StronglySorted_bind Z.lt); [apply StronglySorted_seqZ_any| |].
    + intros i _.
      apply (StronglySorted_bind Z.lt); [apply StronglySorted_seqZ_any| |].
      * intros j _.
        apply (StronglySorted_fmap_2 list_before); [|apply IH].
        intros s t Hst. right. split; [reflexivity|exact Hst].
      * intros j j' a b Hjj Ha Hb.
        apply list_elem_of_fmap in Ha as (s & -> & _).
        apply list_elem_of_fmap in Hb as (t & -> & _).
        left. right. simpl. split; [reflexivity|exact Hjj].
    + intros i i' a b Hii Ha Hb.
      apply list_elem_of_bind in Ha as (j & Ha & _).
      apply list_elem_of_bind in Hb as (j' & Hb & _).
      apply list_elem_of_fmap in Ha as (s & -> & _).
      apply list_elem_of_fmap in Hb as (t & -> & _).
      left. left. simpl. exact Hii.
Qed.

(** X17: for [N >= 1] and [L >= 1], when the vector of as many lists as
    there are lists of [L] swaps with increasing lower indices can be
    built (their number is at most [max_size()] and the heap grants the
    bytes), [get_all_unique_permutations] returns, given enough fuel,
    exactly the lists of [L] pairs with [first < second <= N - 1] and
    strictly increasing lower indices: every such list is in the result,
    and no list is there twice.  When that vector cannot be built the
    call throws. *)
Theorem get_all_unique_permutations_exact (fuel : nat) (heap N L : Z)
    (TMP0 : list index_permutation) :
  1 <= N <= INT_MAX -> 1 <= L <= INT_MAX ->
  length TMP0 = Z.to_nat L ->
  count_sequences (Z.to_nat L) N 0 < SIZE_MOD ->
  (enough_fuel N L <= fuel)%nat ->
  if vector_fits heap (count_sequences (Z.to_nat L) N 0) (row_bytes L)
  then exists out,
         get_all_unique_permutations fuel heap N L TMP0 = Returns out /\
         NoDup out /\
         forall s, s ∈ out <-> length s = Z.to_nat L /\ well_formed N s
  else get_all_unique_permutations fuel heap N L TMP0 = Throws.
Proof.
  intros HN HL Hlen Hfit Hfuel.
  pose proof (count_sequences_nonneg (Z.to_nat L) N 0) as Hnn.
  destruct (vector_fits heap (count_sequences (Z.to_nat L) N 0) (row_bytes L))
    eqn:Hfits.
  - exists (all_sequences (Z.to_nat L) N 0). split; [|split].
    + apply get_all_unique_permutations_fits; assumption.
    + apply all_sequences_NoDup.
    + intros s. rewrite well_formed_iff. apply elem_of_all_sequences. lia.
  - rewrite get_all_unique_permutations_run by assumption.
    rewrite to_size_t_small by lia. rewrite Hfits. reflexivity.
Qed.

Lemma get_all_unique_permutations_exact_witness :
  (1 <= 4 <= INT_MAX /\ 1 <= 2 <= INT_MAX /\
   length (replicate 2 {| first := 9; second := 9 |}) = Z.to_nat 2 /\
   count_sequences (Z.to_nat 2) 4 0 < SIZE_MOD /\
   (enough_fuel 4 2 <= 7)%nat) /\
  if vector_fits 4096 (count_sequences (Z.to_nat 2) 4 0) (row_bytes 2)
  then exists out,
         get_all_unique_permutations 7 4096 4 2
           (replicate 2 {| first := 9; second := 9 |}) = Returns out /\
         NoDup out /\
         forall s, s ∈ out <-> length s = Z.to_nat 2 /\ well_formed 4 s
  else get_all_unique_permutations 7 4096 4 2
         (replicate 2 {| first := 9; second := 9 |}) = Throws.
Proof.
  assert (H1 : 1 <= 4 <= INT_MAX) by (unfold INT_MAX; lia).
  assert (H2 : 1 <= 2 <= INT_MAX) by (unfold INT_MAX; lia).
  assert (H3 : length (replicate 2 {| first := 9; second := 9 |}) = Z.to_nat 2)
    by reflexivity.
  assert (H4 : count_sequences (Z.to_nat 2) 4 0 < SIZE_MOD) by reflexivity.
  assert (H5 : (enough_fuel 4 2 <= 7)%nat) by (vm_compute; lia).
  split; [exact (conj H1 (conj H2 (conj H3 (conj H4 H5))))|].
  exact (get_all_unique_permutations_exact 7 4096 4 2 _ H1 H2 H3 H4 H5).
Defined.

(** X18: for [N >= 1] and [L >= 1], when the vector of as many lists as
    there are lists of [L] swaps with increasing lower indices can be
    built, the result that [get_all_unique_permutations] returns, given
    enough fuel, is in the order of the traversal: of two lists of the
    result, the earlier has the smaller pair (by lower index, then upper
    index) at the first position where they differ.  When that vector
    cannot be built the call throws. *)
Theorem get_all_unique_permutations_sorted (fuel : nat) (heap N L : Z)
    (TMP0 : list index_permutation) :
  1 <= N <= INT_MAX -> 1 <= L <= INT_MAX ->
  length TMP0 = Z.to_nat L ->
  count_sequences (Z.to_nat L) N 0 < SIZE_MOD ->
  (enough_fuel N L <= fuel)%nat ->
  if vector_fits heap (count_sequences (Z.to_nat L) N 0) (row_bytes L)
  then exists out,
         get_all_unique_permutations fuel heap N L TMP0 = Returns out /\
         Sorted.StronglySorted list_before out
  else get_all_unique_permutations fuel heap N L TMP0 = Throws.
Proof.
  intros HN HL Hlen Hfit Hfuel.
  pose proof (count_sequences_nonneg (Z.to_nat L) N 0) as Hnn.
  destruct (vector_fits heap (count_sequences (Z.to_nat L) N 0) (row_bytes L))
    eqn:Hfits.
  - exists (all_sequences (Z.to_nat L) N 0). split.
    + apply get_all_unique_permutations_fits; assumption.
    + apply all_sequences_sorted.
  - rewrite get_all_unique_permutations_run by assumption.
    rewrite to_size_t_small by lia. rewrite Hfits. reflexivity.
Qed.

Lemma get_all_unique_permutations_sorted_witness :
  (1 <= 5 <= INT_MAX /\ 1 <= 3 <= INT_MAX /\
   length (replicate 3 {| first := 0; second := 0 |}) = Z.to_nat 3 /\
   count_sequences (Z.to_nat 3) 5 0 < SIZE_MOD /\
   (enough_fuel 5 3 <= 9)%nat) /\
  if vector_fits 4096 (count_sequences (Z.to_nat 3) 5 0) (row_bytes 3)
  then exists out,
         get_all_unique_permutations 9 4096 5 3
           (replicate 3 {| first := 0; second := 0 |}) = Returns out /\
         Sorted.StronglySorted list_before out
  else get_all_unique_permutations 9 4096 5 3
         (replicate 3 {| first := 0; second := 0 |}) = Throws.
Proof.
  assert (H1 : 1 <= 5 <= INT_MAX) by (unfold INT_MAX; lia).
  assert (H2 : 1 <= 3 <= INT_MAX) by (unfold INT_MAX; lia).
  assert (H3 : length (replicate 3 {| first := 0; second := 0 |}) = Z.to_nat 3)
    by reflexivity.
  assert (H4 : count_sequences (Z.to_nat 3) 5 0 < SIZE_MOD) by reflexivity.
  assert (H5 : (enough_fuel 5 3 <= 9)%nat) by (vm_compute; lia).
  split; [exact (conj H1 (conj H2 (conj H3 (conj H4 H5))))|].
  exact (get_all_unique_permutations_sorted 9 4096 5 3 _ H1 H2 H3 H4 H5).
Defined.

(** X19: lists returned for two levels never have the same effect on a
    collection of [N] distinct elements, unless the levels and the lists
    are the same: no rearrangement is produced at two levels. *)
Theorem get_all_unique_permutations_levels_disjoint {A : Type}
    (fuel1 fuel2 : nat) (heap1 heap2 N L1 L2 : Z)
    (TMP1 TMP2 : list index_permutation)
    (out1 out2 : list (list index_permutation)) (ref : list A)
    (s1 s2 : list index_permutation) :
  1 <= N <= INT_MAX -> 1 <= L1 <= INT_MAX -> 1 <= L2 <= INT_MAX ->
  length TMP1 = Z.to_nat L1 -> length TMP2 = Z.to_nat L2 ->
  NoDup ref -> Z.of_nat (length ref) = N ->
  get_all_unique_permutations fuel1 heap1 N L1 TMP1 = Returns out1 ->
  get_all_unique_permutations fuel2 heap2 N L2 TMP2 = Returns out2 ->
  s1 ∈ out1 -> s2 ∈ out2 ->
  execute_permutations s1 ref = execute_permutations s2 ref ->
  L1 = L2 /\ s1 = s2.
Proof.
  intros HN HL1 HL2 Hlen1 Hlen2 Hnd Href Hout1 Hout2 Hs1 Hs2 E.
  apply get_all_unique_permutations_returns in Hout1 as [-> _]; try assumption.
  apply get_all_unique_permutations_returns in Hout2 as [-> _]; try assumption.
  apply elem_of_all_sequences in Hs1 as [Hl1 Hi1]; [|lia].
  apply elem_of_all_sequences in Hs2 as [Hl2 Hi2]; [|lia].
  rewrite !execute_permutations_in_bounds in E
    by (eapply increasing_from_in_bounds; eassumption).
  assert (Es : s1 = s2).
  { apply (apply_swaps_inj_levels N ref); try assumption. congruence. }
  split; [|exact Es]. subst s2. lia.
Qed.

Lemma get_all_unique_permutations_levels_disjoint_witness :
  (1 <= 3 <= INT_MAX /\ 1 <= 1 <= INT_MAX /\ 1 <= 1 <= INT_MAX /\
   length [{| first := 0; second := 0 |}] = Z.to_nat 1 /\
   length [{| first := 7; second := 7 |}] = Z.to_nat 1 /\
   NoDup [10; 20; 30] /\ Z.of_nat (length [10; 20; 30]) = 3 /\
   get_all_unique_permutations 5 4096 3 1 [{| first := 0; second := 0 |}]
   = Returns (all_sequences 1 3 0) /\
   get_all_unique_permutations 6 1024 3 1 [{| first := 7; second := 7 |}]
   = Returns (all_sequences 1 3 0) /\
   [{| first := 0; second := 2 |}] ∈ all_sequences 1 3 0 /\
   [{| first := 0; second := 2 |}] ∈ all_sequences 1 3 0 /\
   execute_permutations [{| first := 0; second := 2 |}] [10; 20; 30]
   = execute_permutations [{| first := 0; second := 2 |}] [10; 20; 30]) /\
  1 = 1 /\ [{| first := 0; second := 2 |}] = [{| first := 0; second := 2 |}].
Proof.
  assert (H1 : 1 <= 3 <= INT_MAX) by (unfold INT_MAX; lia).
  assert (H2 : 1 <= 1 <= INT_MAX) by (unfold INT_MAX; lia).
  assert (H3 : length [{| first := 0; second := 0 |}] = Z.to_nat 1) by reflexivity.
  assert (H4 : length [{| first := 7; second := 7 |}] = Z.to_nat 1) by reflexivity.
  assert (H5 : NoDup [10; 20; 30])
    by (apply (bool_decide_unpack _); vm_compute; exact Logic.I).
  assert (H6 : Z.of_nat (length [10; 20; 30]) = 3) by reflexivity.
  assert (H7 : get_all_unique_permutations 5 4096 3 1
                 [{| first := 0; second := 0 |}]
               = Returns (all_sequences 1 3 0)) by (vm_compute; reflexivity).
  assert (H8 : get_all_unique_permutations 6 1024 3 1
                 [{| first := 7; second := 7 |}]
               = Returns (all_sequences 1 3 0)) by (vm_compute; reflexivity).
  assert (H9 : [{| first := 0; second := 2 |}] ∈ all_sequences 1 3 0).
  { apply elem_of_all_sequences; [lia|]. split; [reflexivity|].
    simpl. unfold pair_ok. simpl. lia. }
  assert (H10 : execute_permutations [{| first := 0; second := 2 |}] [10; 20; 30]
                = execute_permutations [{| first := 0; second := 2 |}] [10; 20; 30])
    by reflexivity.
  split.
  - exact (conj H1 (conj H2 (conj H2 (conj H3 (conj H4 (conj H5 (conj H6
            (conj H7 (conj H8 (conj H9 (conj H9 H10))))))))))).
  - exact (get_all_unique_permutations_levels_disjoint 5 6 4096 1024 3 1 1
             _ _ _ _ [10; 20; 30] _ _ H1 H2 H2 H3 H4 H5 H6 H7 H8 H9 H9 H10).
Defined.

(** X20: no list returned for a level [L >= 1] is the identity: executed
    on a collection of [N] distinct elements it returns a collection that
    differs from it. *)
Theorem get_all_unique_permutations_never_identity {A : Type}
    (fuel : nat) (heap N L : Z) (TMP0 : list index_permutation)
    (out : list (list index_permutation)) (ref : list A)
    (s : list index_permutation) :
  1 <= N <= INT_MAX -> 1 <= L <= INT_MAX ->
  length TMP0 = Z.to_nat L ->
  NoDup ref -> Z.of_nat (length ref) = N ->
  get_all_unique_permutations fuel heap N L TMP0 = Returns out ->
  s ∈ out ->
  exists res, execute_permutations s ref = Returns res /\ res <> ref.
Proof.
  intros HN HL Hlen Hnd Href Hout Hs.
  apply get_all_unique_permutations_returns in Hout as [-> _]; try assumption.
  apply elem_of_all_sequences in Hs as [Hl Hi]; [|lia].
  exists (apply_swaps s ref). split.
  - apply execute_permutations_in_bounds.
    eapply increasing_from_in_bounds; eassumption.
  - destruct s as [|p s]; [simpl in Hl; lia|].
    apply (apply_swaps_moves N 0); try assumption. lia.
Qed.

Lemma get_all_unique_permutations_never_identity_witness :
  (1 <= 3 <= INT_MAX /\ 1 <= 2 <= INT_MAX /\
   length (replicate 2 {| first := 0; second := 0 |}) = Z.to_nat 2 /\
   NoDup [10; 20; 30] /\ Z.of_nat (length [10; 20; 30]) = 3 /\
   get_all_unique_permutations 6 4096 3 2
     (replicate 2 {| first := 0; second := 0 |})
   = Returns (all_sequences 2 3 0) /\
   [{| first := 0; second := 1 |}; {| first := 1; second := 2 |}]
     ∈ all_sequences 2 3 0) /\
  exists res,
    execute_permutations
      [{| first := 0; second := 1 |}; {| first := 1; second := 2 |}]
      [10; 20; 30] = Returns res /\
    res <> [10; 20; 30].
Proof.
  assert (H1 : 1 <= 3 <= INT_MAX) by (unfold INT_MAX; lia).
  assert (H2 : 1 <= 2 <= INT_MAX) by (unfold INT_MAX; lia).
  assert (H3 : length (replicate 2 {| first := 0; second := 0 |}) = Z.to_nat 2)
    by reflexivity.
  assert (H4 : NoDup [10; 20; 30])
    by (apply (bool_decide_unpack _); vm_compute; exact Logic.I).
  assert (H5 : Z.of_nat (length [10; 20; 30]) = 3) by reflexivity.
  assert (H6 : get_all_unique_permutations 6 4096 3 2
                 (replicate 2 {| first := 0; second := 0 |})
               = Returns (all_sequences 2 3 0)) by (vm_compute; reflexivity).
  assert (H7 : [{| first := 0; second := 1 |}; {| first := 1; second := 2 |}]
                 ∈ all_sequences 2 3 0).
  { apply elem_of_all_sequences; [lia|]. split; [reflexivity|].
    simpl. unfold pair_ok. simpl. lia. }
  split; [exact (conj H1 (conj H2 (conj H3 (conj H4 (conj H5 (conj H6 H7))))))|].
  exact (get_all_unique_permutations_never_identity 6 4096 3 2 _ _
           [10; 20; 30] _ H1 H2 H3 H4 H5 H6 H7).
Defined.

(** X21: for [1 <= N <= 20], every rearrangement of a collection of [N]
    distinct elements other than the collection itself belongs to some
    level [1 <= L <= N - 1]: given enough fuel, the call for that level
    either returns a result that holds a list which
    [execute_permutations] turns into the rearrangement (when the vector
    of the lists of that level can be built), or throws (when it
    cannot). *)
Theorem get_all_unique_permutations_complete {A : Type} (N : Z)
    (ref res : list A) :
  1 <= N <= 20 -> NoDup ref -> Z.of_nat (length ref) = N ->
  res ≡ₚ ref -> res <> ref ->
  exists L,
    1 <= L <= N - 1 /\
    forall (fuel : nat) (heap : Z) (TMP0 : list index_permutation),
      length TMP0 = Z.to_nat L -> (enough_fuel N L <= fuel)%nat ->
      if vector_fits heap (count_sequences (Z.to_nat L) N 0) (row_bytes L)
      then exists out s,
             get_all_unique_permutations fuel heap N L TMP0 = Returns out /\
             s ∈ out /\
             execute_permutations s ref = Returns res
      else get_all_unique_permutations fuel heap N L TMP0 = Throws.
Proof.
  intros HN Hnd Href Hperm Hne. assert (HI := INT_MAX_eq).
  destruct (apply_swaps_complete N (Z.to_nat N) 0 ref res)
    as (s & Hs & Es); try assumption; try lia.
  { symmetry. exact Hperm. }
  assert (Hin : s ∈ all_sequences (length s) N 0).
  { apply elem_of_all_sequences; [lia|]. split; [reflexivity|exact Hs]. }
  assert (Hpos : (1 <= length s)%nat).
  { destruct s as [|p s]; [|simpl; lia]. exfalso. apply Hne.
    symmetry. exact Es. }
  assert (Hle : Z.of_nat (length s) <= N - 1).
  { destruct (Z.le_gt_cases (Z.of_nat (length s)) (N - 1)) as [H|H]; [exact H|].
    rewrite all_sequences_nil in Hin by lia. inversion Hin. }
  exists (Z.of_nat (length s)). split; [lia|].
  intros fuel heap TMP0 Hlen Hfuel.
  rewrite Nat2Z.id.
  destruct (vector_fits heap (count_sequences (length s) N 0)
              (row_bytes (Z.of_nat (length s)))) eqn:Hfits.
  - exists (all_sequences (length s) N 0), s. split; [|split].
    + rewrite <- (Nat2Z.id (length s)) at 2.
      apply get_all_unique_permutations_fits; try assumption; try lia.
      rewrite Nat2Z.id. exact Hfits.
    + exact Hin.
    + rewrite execute_permutations_in_bounds
        by (eapply increasing_from_in_bounds; eassumption).
      rewrite Es. reflexivity.
  - rewrite get_all_unique_permutations_run by (try assumption; lia).
    rewrite Nat2Z.id.
    pose proof (count_sequences_fits (length s) N HN).
    pose proof (count_sequences_nonneg (length s) N 0).
    rewrite to_size_t_small by lia. rewrite Hfits. reflexivity.
Qed.

Lemma get_all_unique_permutations_complete_witness :
  (1 <= 3 <= 20 /\ NoDup [10; 20; 30] /\ Z.of_nat (length [10; 20; 30]) = 3 /\
   [30; 10; 20] ≡ₚ [10; 20; 30] /\ [30; 10; 20] <> [10; 20; 30]) /\
  exists L,
    1 <= L <= 3 - 1 /\
    forall (fuel : nat) (heap : Z) (TMP0 : list index_permutation),
      length TMP0 = Z.to_nat L -> (enough_fuel 3 L <= fuel)%nat ->
      if vector_fits heap (count_sequences (Z.to_nat L) 3 0) (row_bytes L)
      then exists out s,
             get_all_unique_permutations fuel heap 3 L TMP0 = Returns out /\
             s ∈ out /\
             execute_permutations s [10; 20; 30] = Returns [30; 10; 20]
      else get_all_unique_permutations fuel heap 3 L TMP0 = Throws.
Proof.
  assert (H1 : 1 <= 3 <= 20) by lia.
  assert (H2 : NoDup [10; 20; 30])
    by (apply (bool_decide_unpack _); vm_compute; exact Logic.I).
  assert (H3 : Z.of_nat (length [10; 20; 30]) = 3) by reflexivity.
  assert (H4 : [30; 10; 20] ≡ₚ [10; 20; 30]).
  { etransitivity; [apply perm_swap|]. apply perm_skip. apply perm_swap. }
  assert (H5 : [30; 10; 20] <> [10; 20; 30]) by discriminate.
  split; [exact (conj H1 (conj H2 (conj H3 (conj H4 H5))))|].
  exact (get_all_unique_permutations_complete 3 [10; 20; 30] [30; 10; 20]
           H1 H2 H3 H4 H5).
Defined.

(** X22: the local [TMP] is not initialised in the source; given enough
    fuel, what it holds at the start has no effect on the outcome. *)
Theorem get_all_unique_permutations_scratch (fuel : nat) (heap N L : Z)
    (TMP0 TMP0' : list index_permutation) :
  1 <= N <= INT_MAX -> 1 <= L <= INT_MAX ->
  length TMP0 = Z.to_nat L -> length TMP0' = Z.to_nat L ->
  (enough_fuel N L <= fuel)%nat ->
  get_all_unique_permutations fuel heap N L TMP0
  = get_all_unique_permutations fuel heap N L TMP0'.
Proof.
  intros HN HL Hlen Hlen' Hfuel.
  rewrite !get_all_unique_permutations_run by assumption. reflexivity.
Qed.

Lemma get_all_unique_permutations_scratch_witness :
  (1 <= 4 <= INT_MAX /\ 1 <= 2 <= INT_MAX /\
   length (replicate 2 {| first := 9; second := 9 |}) = Z.to_nat 2 /\
   length [{| first := 1; second := 0 |}; {| first := 3; second := 3 |}]
   = Z.to_nat 2 /\
   (enough_fuel 4 2 <= 7)%nat) /\
  get_all_unique_permutations 7 4096 4 2
    (replicate 2 {| first := 9; second := 9 |})
  = get_all_unique_permutations 7 4096 4 2
      [{| first := 1; second := 0 |}; {| first := 3; second := 3 |}].
Proof.
  assert (H1 : 1 <= 4 <= INT_MAX) by (unfold INT_MAX; lia).
  assert (H2 : 1 <= 2 <= INT_MAX) by (unfold INT_MAX; lia).
  assert (H3 : length (replicate 2 {| first := 9; second := 9 |}) = Z.to_nat 2)
    by reflexivity.
  assert (H4 : length [{| first := 1; second := 0 |}; {| first := 3; second := 3 |}]
               = Z.to_nat 2) by reflexivity.
  assert (H5 : (enough_fuel 4 2 <= 7)%nat) by (vm_compute; lia).
  split; [exact (conj H1 (conj H2 (conj H3 (conj H4 H5))))|].
  exact (get_all_unique_permutations_scratch 7 4096 4 2 _ _ H1 H2 H3 H4 H5).
Defined.

(** X23: when the number of lists for [N >= 1] and [L >= 1] does not fit
    in [size_t], [get_all_unique_permutations] returns nothing, whatever
    the fuel and the heap: the vector [OUT] is sized by the wrapped count;
    with enough fuel the call throws when that vector cannot be built,
    and a write goes past the end of [OUT] when it can. *)
Theorem get_all_unique_permutations_overflow (fuel : nat) (heap N L : Z)
    (TMP0 : list index_permutation) :
  1 <= N <= INT_MAX -> 1 <= L <= INT_MAX ->
  length TMP0 = Z.to_nat L ->
  SIZE_MOD <= count_sequences (Z.to_nat L) N 0 ->
  (forall out, get_all_unique_permutations fuel heap N L TMP0 <> Returns out) /\
  ((enough_fuel N L <= fuel)%nat ->
   get_all_unique_permutations fuel heap N L TMP0
   = if vector_fits heap (to_size_t (count_sequences (Z.to_nat L) N 0))
          (row_bytes L)
     then Undefined
     else Throws).
Proof.
  intros HN HL Hlen Hbig. split.
  - intros out Hout.
    apply get_all_unique_permutations_returns in Hout as (_ & Hfit & _);
      try assumption. lia.
  - intros Hfuel. rewrite get_all_unique_permutations_run by assumption.
    destruct (Z.ltb_spec (count_sequences (Z.to_nat L) N 0) SIZE_MOD);
      [lia|reflexivity].
Qed.

Lemma get_all_unique_permutations_overflow_witness :
  (1 <= 67 <= INT_MAX /\ 1 <= 66 <= INT_MAX /\
   length (replicate 66 {| first := 0; second := 0 |}) = Z.to_nat 66 /\
   SIZE_MOD <= count_sequences (Z.to_nat 66) 67 0) /\
  (forall out,
     get_all_unique_permutations 200 4096 67 66
       (replicate 66 {| first := 0; second := 0 |}) <> Returns out) /\
  ((enough_fuel 67 66 <= 200)%nat ->
   get_all_unique_permutations 200 4096 67 66
     (replicate 66 {| first := 0; second := 0 |})
   = if vector_fits 4096 (to_size_t (count_sequences (Z.to_nat 66) 67 0))
          (row_bytes 66)
     then Undefined
     else Throws).
Proof.
  assert (H1 : 1 <= 67 <= INT_MAX) by (unfold INT_MAX; lia).
  assert (H2 : 1 <= 66 <= INT_MAX) by (unfold INT_MAX; lia).
  assert (H3 : length (replicate 66 {| first := 0; second := 0 |}) = Z.to_nat 66)
    by reflexivity.
  assert (H4 : SIZE_MOD <= count_sequences (Z.to_nat 66) 67 0).
  { change (Z.to_nat 66) with 66%nat.
    rewrite (count_sequences_full 66 0 : count_sequences 66 67 0 = factorialZ 66).
    vm_compute. discriminate. }
  split; [exact (conj H1 (conj H2 (conj H3 H4)))|].
  exact (get_all_unique_permutations_overflow 200 4096 67 66 _ H1 H2 H3 H4).
Defined.

(** X24: [inner_permutation_loop] called with [L] levels to go at index
    [X = LMAX - L], with room in [OUT] from the iterator on and enough
    fuel, returns: it has written, from the iterator on, the first [X]
    pairs of [TMP] followed by each list of [L] pairs with increasing
    lower indices from [MIN] on, in the order of the traversal; it has
    moved the iterator past them, and it has kept the rest of [OUT], the
    first [X] pairs of [TMP] and the length of [TMP]. *)
Theorem inner_permutation_loop_appends (r fuel W : nat) (N LMAX X MIN : Z)
    (st : enum_state) :
  1 <= N <= INT_MAX -> 1 <= LMAX <= INT_MAX ->
  N < Z.of_nat W -> (N < LMAX -> SIZE_MOD <= Z.of_nat W) ->
  X = LMAX - Z.of_nat r -> 0 <= X -> 0 <= MIN <= INT_MAX ->
  length (es_TMP st) = Z.to_nat LMAX ->
  (r + W <= fuel)%nat ->
  (es_ELEMENT st + length (all_sequences r N MIN) <= length (es_OUT st))%nat ->
  exists st',
    inner_permutation_loop fuel N LMAX (Z.of_nat r) X MIN st = Returns st' /\
    es_OUT st'
    = take (es_ELEMENT st) (es_OUT st)
      ++ (app (take (Z.to_nat X) (es_TMP st)) <$> all_sequences r N MIN)
      ++ drop (es_ELEMENT st + length (all_sequences r N MIN)) (es_OUT st) /\
    es_ELEMENT st' = (es_ELEMENT st + length (all_sequences r N MIN))%nat /\
    take (Z.to_nat X) (es_TMP st') = take (Z.to_nat X) (es_TMP st) /\
    length (es_TMP st') = length (es_TMP st).
Proof.
  intros HN HL HW1 HW2 HX HX0 HMIN Hlen Hfuel Hroom.
  pose proof (inner_permutation_loop_emits N LMAX W HN HL HW1 HW2
                r fuel X MIN st HX HX0 HMIN Hlen Hfuel) as Hem.
  rewrite emit_fits in Hem by (rewrite length_fmap; exact Hroom).
  rewrite length_fmap in Hem.
  destruct (inner_permutation_loop fuel N LMAX (Z.of_nat r) X MIN st)
    as [st'| | |]; try contradiction.
  destruct Hem as (Hout & Hel & Htmp & Hl).
  rewrite length_take in Htmp.
  replace (Z.to_nat X `min` length (es_TMP st))%nat with (Z.to_nat X) in Htmp by lia.
  exists st'. split; [reflexivity|]. split; [exact Hout|]. split; [exact Hel|].
  split; [exact Htmp|]. rewrite Hl, Hlen. reflexivity.
Qed.

Lemma inner_permutation_loop_appends_witness :
  (1 <= 3 <= INT_MAX /\ 1 <= 2 <= INT_MAX /\
   3 < Z.of_nat 4 /\ (3 < 2 -> SIZE_MOD <= Z.of_nat 4) /\
   1 = 2 - Z.of_nat 1 /\ 0 <= 1 /\ 0 <= 1 <= INT_MAX /\
   length (es_TMP {| es_TMP := [{| first := 0; second := 2 |};
                                {| first := 9; second := 9 |}];
                     es_OUT := replicate 3 [];
                     es_ELEMENT := 1 |}) = Z.to_nat 2 /\
   (1 + 4 <= 5)%nat /\
   (es_ELEMENT {| es_TMP := [{| first := 0; second := 2 |};
                             {| first := 9; second := 9 |}];
                  es_OUT := replicate 3 [];
                  es_ELEMENT := 1 |}
    + length (all_sequences 1 3 1)
    <= length (es_OUT {| es_TMP := [{| first := 0; second := 2 |};
                                    {| first := 9; second := 9 |}];
                         es_OUT := replicate 3 [];
                         es_ELEMENT := 1 |}))%nat) /\
  exists st',
    inner_permutation_loop 5 3 2 (Z.of_nat 1) 1 1
      {| es_TMP := [{| first := 0; second := 2 |}; {| first := 9; second := 9 |}];
         es_OUT := replicate 3 [];
         es_ELEMENT := 1 |} = Returns st' /\
    es_OUT st'
    = take 1 (replicate 3 [])
      ++ (app (take (Z.to_nat 1) [{| first := 0; second := 2 |};
                                  {| first := 9; second := 9 |}])
            <$> all_sequences 1 3 1)
      ++ drop (1 + length (all_sequences 1 3 1)) (replicate 3 []) /\
    es_ELEMENT st' = (1 + length (all_sequences 1 3 1))%nat /\
    take (Z.to_nat 1) (es_TMP st')
    = take (Z.to_nat 1) [{| first := 0; second := 2 |};
                         {| first := 9; second := 9 |}] /\
    length (es_TMP st')
    = length [{| first := 0; second := 2 |}; {| first := 9; second := 9 |}].
Proof.
  assert (H1 : 1 <= 3 <= INT_MAX) by (unfold INT_MAX; lia).
  assert (H2 : 1 <= 2 <= INT_MAX) by (unfold INT_MAX; lia).
  assert (H3 : 3 < Z.of_nat 4) by lia.
  assert (H4 : 3 < 2 -> SIZE_MOD <= Z.of_nat 4) by lia.
  assert (H5 : 1 = 2 - Z.of_nat 1) by reflexivity.
  assert (H6 : 0 <= 1) by lia.
  assert (H7 : 0 <= 1 <= INT_MAX) by (unfold INT_MAX; lia).
  assert (H8 : length (es_TMP {| es_TMP := [{| first := 0; second := 2 |};
                                            {| first := 9; second := 9 |}];
                                 es_OUT := replicate 3 [];
                                 es_ELEMENT := 1 |}) = Z.to_nat 2)
    by reflexivity.
  assert (H9 : (1 + 4 <= 5)%nat) by lia.
  assert (H10 : (es_ELEMENT {| es_TMP := [{| first := 0; second := 2 |};
                                          {| first := 9; second := 9 |}];
                               es_OUT := replicate 3 [];
                               es_ELEMENT := 1 |}
                 + length (all_sequences 1 3 1)
                 <= length (es_OUT {| es_TMP := [{| first := 0; second := 2 |};
                                                 {| first := 9; second := 9 |}];
                                      es_OUT := replicate 3 [];
                                      es_ELEMENT := 1 |}))%nat)
    by (vm_compute; lia).
  split.
  - exact (conj H1 (conj H2 (conj H3 (conj H4 (conj H5 (conj H6 (conj H7
            (conj H8 (conj H9 H10))))))))).
  - exact (inner_permutation_loop_appends 1 5 4 3 2 1 1 _
             H1 H2 H3 H4 H5 H6 H7 H8 H9 H10).
Defined.

(** X25: [inner_permutation_loop] checks no bound of [OUT]: called with
    [L] levels to go at index [X = LMAX - L] and enough fuel, but with
    less room in [OUT] from the iterator on than there are lists to write,
    its behaviour is undefined. *)
Theorem inner_permutation_loop_no_room (r fuel W : nat) (N LMAX X MIN : Z)
    (st : enum_state) :
  1 <= N <= INT_MAX -> 1 <= LMAX <= INT_MAX ->
  N < Z.of_nat W -> (N < LMAX -> SIZE_MOD <= Z.of_nat W) ->
  X = LMAX - Z.of_nat r -> 0 <= X -> 0 <= MIN <= INT_MAX ->
  length (es_TMP st) = Z.to_nat LMAX ->
  (r + W <= fuel)%nat ->
  (es_ELEMENT st <= length (es_OUT st))%nat ->
  (length (es_OUT st) < es_ELEMENT st + length (all_sequences r N MIN))%nat ->
  inner_permutation_loop fuel N LMAX (Z.of_nat r) X MIN st = Undefined.
Proof.
  intros HN HL HW1 HW2 HX HX0 HMIN Hlen Hfuel Hel Hroom.
  pose proof (inner_permutation_loop_emits N LMAX W HN HL HW1 HW2
                r fuel X MIN st HX HX0 HMIN Hlen Hfuel) as Hem.
  rewrite emit_overflow in Hem by (rewrite ?length_fmap; assumption).
  destruct (inner_permutation_loop fuel N LMAX (Z.of_nat r) X MIN st)
    as [st'| | |]; try contradiction.
  reflexivity.
Qed.

Lemma inner_permutation_loop_no_room_witness :
  (1 <= 3 <= INT_MAX /\ 1 <= 2 <= INT_MAX /\
   3 < Z.of_nat 4 /\ (3 < 2 -> SIZE_MOD <= Z.of_nat 4) /\
   1 = 2 - Z.of_nat 1 /\ 0 <= 1 /\ 0 <= 0 <= INT_MAX /\
   length (es_TMP {| es_TMP := [{| first := 0; second := 2 |};
                                {| first := 9; second := 9 |}];
                     es_OUT := replicate 2 [];
                     es_ELEMENT := 0 |}) = Z.to_nat 2 /\
   (1 + 4 <= 5)%nat /\
   (es_ELEMENT {| es_TMP := [{| first := 0; second := 2 |};
                             {| first := 9; second := 9 |}];
                  es_OUT := replicate 2 [];
                  es_ELEMENT := 0 |}
    <= length (es_OUT {| es_TMP := [{| first := 0; second := 2 |};
                                    {| first := 9; second := 9 |}];
                         es_OUT := replicate 2 [];
                         es_ELEMENT := 0 |}))%nat /\
   (length (es_OUT {| es_TMP := [{| first := 0; second := 2 |};
                                 {| first := 9; second := 9 |}];
                      es_OUT := replicate 2 [];
                      es_ELEMENT := 0 |})
    < es_ELEMENT {| es_TMP := [{| first := 0; second := 2 |};
                               {| first := 9; second := 9 |}];
                    es_OUT := replicate 2 [];
                    es_ELEMENT := 0 |}
      + length (all_sequences 1 3 0))%nat) /\
  inner_permutation_loop 5 3 2 (Z.of_nat 1) 1 0
    {| es_TMP := [{| first := 0; second := 2 |}; {| first := 9; second := 9 |}];
       es_OUT := replicate 2 [];
       es_ELEMENT := 0 |} = Undefined.
Proof.
  assert (H1 : 1 <= 3 <= INT_MAX) by (unfold INT_MAX; lia).
  assert (H2 : 1 <= 2 <= INT_MAX) by (unfold INT_MAX; lia).
  assert (H3 : 3 < Z.of_nat 4) by lia.
  assert (H4 : 3 < 2 -> SIZE_MOD <= Z.of_nat 4) by lia.
  assert (H5 : 1 = 2 - Z.of_nat 1) by reflexivity.
  assert (H6 : 0 <= 1) by lia.
  assert (H7 : 0 <= 0 <= INT_MAX) by (unfold INT_MAX; lia).
  assert (H8 : length (es_TMP {| es_TMP := [{| first := 0; second := 2 |};
                                            {| first := 9; second := 9 |}];
                                 es_OUT := replicate 2 [];
                                 es_ELEMENT := 0 |}) = Z.to_nat 2)
    by reflexivity.
  assert (H9 : (1 + 4 <= 5)%nat) by lia.
  assert (H10 : (es_ELEMENT {| es_TMP := [{| first := 0; second := 2 |};
                                          {| first := 9; second := 9 |}];
                               es_OUT := replicate 2 [];
                               es_ELEMENT := 0 |}
                 <= length (es_OUT {| es_TMP := [{| first := 0; second := 2 |};
                                                 {| first := 9; second := 9 |}];
                                      es_OUT := replicate 2 [];
                                      es_ELEMENT := 0 |}))%nat)
    by (vm_compute; lia).
  assert (H11 : (length (es_OUT {| es_TMP := [{| first := 0; second := 2 |};
                                              {| first := 9; second := 9 |}];
                                   es_OUT := replicate 2 [];
                                   es_ELEMENT := 0 |})
                 < es_ELEMENT {| es_TMP := [{| first := 0; second := 2 |};
                                            {| first := 9; second := 9 |}];
                                 es_OUT := replicate 2 [];
                                 es_ELEMENT := 0 |}
                   + length (all_sequences 1 3 0))%nat)
    by (vm_compute; lia).
  split.
  - exact (conj H1 (conj H2 (conj H3 (conj H4 (conj H5 (conj H6 (conj H7
            (conj H8 (conj H9 (conj H10 H11)))))))))).
  - exact (inner_permutation_loop_no_room 1 5 4 3 2 1 0 _
             H1 H2 H3 H4 H5 H6 H7 H8 H9 H10 H11).
Defined.

(** X26: beyond [N = 2^32] the product [N * (N - 1)] of
    [num_unique_pairs] wraps around before the division: for every larger
    [size_t] the result is below [2^63], and so below the number
    [N * (N - 1) / 2] of pairs. *)
Theorem num_unique_pairs_wraps (N : Z) :
  2 ^ 32 < N < SIZE_MOD ->
  num_unique_pairs N < 2 ^ 63 <= N * (N - 1) / 2.
Proof.
  intros HN. assert (HM := SIZE_MOD_eq).
  unfold num_unique_pairs, udiv, umul.
  destruct (Z.ltb_spec 0 N) as [_|?]; [|lia].
  split.
  - pose proof (to_size_t_range (N * usub N 1)) as Hr.
    apply Z.div_lt_upper_bound; lia.
  - apply Z.div_le_lower_bound; [lia|]. nia.
Qed.

Lemma num_unique_pairs_wraps_witness :
  2 ^ 32 < 2 ^ 32 + 1 < SIZE_MOD /\
  num_unique_pairs (2 ^ 32 + 1) < 2 ^ 63 <= (2 ^ 32 + 1) * (2 ^ 32 + 1 - 1) / 2.
Proof.
  assert (H : 2 ^ 32 < 2 ^ 32 + 1 < SIZE_MOD) by (unfold SIZE_MOD; lia).
  split; [exact H|].
  exact (num_unique_pairs_wraps (2 ^ 32 + 1) H).
Defined.

(** X27: every list returned by [get_all_unique_permutations] for [N]
    elements can be executed on every collection of [N] elements, distinct
    or not: all its pairs are within bounds, and [execute_permutations]
    returns a rearrangement of the collection. *)
Theorem get_all_unique_permutations_executable {A : Type}
    (fuel : nat) (heap N L : Z) (TMP0 : list index_permutation)
    (out : list (list index_permutation)) (ref : list A)
    (s : list index_permutation) :
  1 <= N <= INT_MAX -> 1 <= L <= INT_MAX ->
  length TMP0 = Z.to_nat L ->
  Z.of_nat (length ref) = N ->
  get_all_unique_permutations fuel heap N L TMP0 = Returns out ->
  s ∈ out ->
  Forall (pair_in_bounds ref) s /\
  exists res, execute_permutations s ref = Returns res /\ res ≡ₚ ref.
Proof.
  intros HN HL Hlen Href Hout Hs.
  apply get_all_unique_permutations_returns in Hout as [-> _]; try assumption.
  apply elem_of_all_sequences in Hs as [_ Hi]; [|lia].
  assert (Hb : Forall (pair_in_bounds ref) s)
    by (eapply increasing_from_in_bounds; eassumption).
  split; [exact Hb|].
  exists (apply_swaps s ref). split.
  - apply execute_permutations_in_bounds. exact Hb.
  - apply apply_swaps_Permutation.
Qed.

Lemma get_all_unique_permutations_executable_witness :
  (1 <= 3 <= INT_MAX /\ 1 <= 2 <= INT_MAX /\
   length (replicate 2 {| first := 0; second := 0 |}) = Z.to_nat 2 /\
   Z.of_nat (length [7; 7; 8]) = 3 /\
   get_all_unique_permutations 6 4096 3 2
     (replicate 2 {| first := 0; second := 0 |})
   = Returns (all_sequences 2 3 0) /\
   [{| first := 0; second := 2 |}; {| first := 1; second := 2 |}]
     ∈ all_sequences 2 3 0) /\
  Forall (pair_in_bounds [7; 7; 8])
    [{| first := 0; second := 2 |}; {| first := 1; second := 2 |}] /\
  exists res,
    execute_permutations
      [{| first := 0; second := 2 |}; {| first := 1; second := 2 |}]
      [7; 7; 8] = Returns res /\
    res ≡ₚ [7; 7; 8].
Proof.
  assert (H1 : 1 <= 3 <= INT_MAX) by (unfold INT_MAX; lia).
  assert (H2 : 1 <= 2 <= INT_MAX) by (unfold INT_MAX; lia).
  assert (H3 : length (replicate 2 {| first := 0; second := 0 |}) = Z.to_nat 2)
    by reflexivity.
  assert (H4 : Z.of_nat (length [7; 7; 8]) = 3) by reflexivity.
  assert (H5 : get_all_unique_permutations 6 4096 3 2
                 (replicate 2 {| first := 0; second := 0 |})
               = Returns (all_sequences 2 3 0)) by (vm_compute; reflexivity).
  assert (H6 : [{| first := 0; second := 2 |}; {| first := 1; second := 2 |}]
                 ∈ all_sequences 2 3 0).
  { apply elem_of_all_sequences; [lia|]. split; [reflexivity|].
    simpl. unfold pair_ok. simpl. lia. }
  split; [exact (conj H1 (conj H2 (conj H3 (conj H4 (conj H5 H6)))))|].
  exact (get_all_unique_permutations_executable 6 4096 3 2 _ _ [7; 7; 8] _
           H1 H2 H3 H4 H5 H6).
Defined.
